(** * Monotone coupling from the past for lozenge tilings

    A shallow embedding of [src/misc/cftp.py]: the generic driver
    [run_cftp] and the Markov chain [LozengeTiling] on the path systems
    of an (a x b x c) hexagon.

    Python integers are unbounded, so heights and indices are [Z].  A
    state is a list of rows, each a list of heights.  Python list
    indexing accepts negative indices (counted from the end) and raises
    [IndexError] out of range; both are written out in [norm_index].
    [LozengeTiling.update] mutates its argument, so it is a computation
    in a state-and-exception monad over the state being updated. *)

From Stdlib Require Import ZArith List Lia Bool.
From Stdlib Require String Ascii.
From stdpp Require Import base list.

Open Scope Z_scope.

(** ** Python values: exceptions, list indexing, ranges *)

Inductive exn : Type :=
| IndexError
| ValueError
| TypeError.

Inductive result (A : Type) : Type :=
| Ok (a : A)
| Raise (e : exn).

Arguments Ok {A} a.
Arguments Raise {A} e.

Definition rbind {A B} (r : result A) (f : A -> result B) : result B :=
  match r with
  | Ok a => f a
  | Raise e => Raise e
  end.

(** The position a Python index [i] denotes in a list of length [n]:
    [0 <= i < n] is itself, [-n <= i < 0] counts from the end, anything
    else is out of range. *)
Definition norm_index (n : nat) (i : Z) : option nat :=
  if i <? 0 then
    if 0 <=? i + Z.of_nat n then Some (Z.to_nat (i + Z.of_nat n)) else None
  else
    if i <? Z.of_nat n then Some (Z.to_nat i) else None.

(** [l[i]] *)
Definition getitem {A} (l : list A) (i : Z) : result A :=
  match norm_index (length l) i with
  | Some n =>
      match l !! n with
      | Some x => Ok x
      | None => Raise IndexError
      end
  | None => Raise IndexError
  end.

(** [l[i] = x] *)
Definition setitem {A} (l : list A) (i : Z) (x : A) : result (list A) :=
  match norm_index (length l) i with
  | Some n => Ok (<[n := x]> l)
  | None => Raise IndexError
  end.

(** [range(n)] and [range(lo, hi)] *)
Definition range (n : Z) : list Z := seqZ 0 n.
Definition range2 (lo hi : Z) : list Z := seqZ lo (hi - lo).

(** ** The chain on lozenge tilings *)

Abbreviation state := (list (list Z)) (only parsing).

(** An updating operation [(k, j, dy)]. *)
Definition upd : Type := (Z * Z * Z)%type.

Record LozengeTiling : Type := mkLozengeTiling { size : Z * Z * Z }.

(** [LozengeTiling.__init__]: stores the triple, nothing else. *)
Definition __init__ (sz : Z * Z * Z) : result LozengeTiling :=
  Ok (mkLozengeTiling sz).

(** [LozengeTiling.min_max_states] *)
Definition min_max_states (self : LozengeTiling) : state * state :=
  let '(a, b, c) := size self in
  let s0 :=
    map (fun k =>
           map (fun j => if k =? 0 then Z.max (j - a) 0 else k + Z.min j b)
               (range (a + b + 1)))
        (range (c + 2)) in
  let s1 :=
    map (fun k =>
           map (fun j => if k =? c + 1 then c + 1 + Z.min j b
                         else k + Z.max (j - a) 0)
               (range (a + b + 1)))
        (range (c + 2)) in
  (s0, s1).

(** *** Computations that read and mutate one state *)

Module St.

Definition M (A : Type) : Type := state -> result A * state.

Definition ret {A} (a : A) : M A := fun s => (Ok a, s).

Definition bind {A B} (m : M A) (f : A -> M B) : M B :=
  fun s =>
    match m s with
    | (Ok a, s') => f a s'
    | (Raise e, s') => (Raise e, s')
    end.

(** [s[k][j]] as a pure lookup *)
Definition item2 (s : state) (k j : Z) : result Z :=
  rbind (getitem s k) (fun row => getitem row j).

(** reading [s[k][j]] *)
Definition read (k j : Z) : M Z := fun s => (item2 s k j, s).

(** [s[k][j] += d]: fetch the row [s[k]], read its entry [j], store the
    sum back into that row. *)
Definition aug_add (k j d : Z) : M unit :=
  fun s =>
    match getitem s k with
    | Ok row =>
        match getitem row j with
        | Ok v =>
            match setitem row j (v + d) with
            | Ok row' =>
                match setitem s k row' with
                | Ok s' => (Ok tt, s')
                | Raise e => (Raise e, s)
                end
            | Raise e => (Raise e, s)
            end
        | Raise e => (Raise e, s)
        end
    | Raise e => (Raise e, s)
    end.

End St.

Notation "x <- m ;; f" := (St.bind m (fun x => f))
  (at level 100, m at next level, right associativity).

(** The chained comparison
    [s[k][j - 1] == s[k][j] < s[k][j + 1] < s[k + 1][j]];
    Python evaluates the operands left to right and stops at the first
    comparison that fails. *)
Definition push_up_cond (k j : Z) : St.M bool :=
  x <- St.read k (j - 1) ;;
  y <- St.read k j ;;
  if negb (x =? y) then St.ret false else
  z <- St.read k (j + 1) ;;
  if negb (y <? z) then St.ret false else
  w <- St.read (k + 1) j ;;
  St.ret (z <? w).

(** [s[k - 1][j] < s[k][j - 1] < s[k][j] == s[k][j + 1]] *)
Definition push_down_cond (k j : Z) : St.M bool :=
  x <- St.read (k - 1) j ;;
  y <- St.read k (j - 1) ;;
  if negb (x <? y) then St.ret false else
  z <- St.read k j ;;
  if negb (y <? z) then St.ret false else
  w <- St.read k (j + 1) ;;
  St.ret (z =? w).

(** [LozengeTiling.update] *)
Definition update (u : upd) : St.M unit :=
  let '(k, j, dy) := u in
  if dy =? 1 then
    ok <- push_up_cond k j ;;
    if ok then St.aug_add k j 1 else St.ret tt
  else
    ok <- push_down_cond k j ;;
    if ok then St.aug_add k j (-1) else St.ret tt.

(** The state left behind by [update], whether it returned or raised. *)
Definition updated (s : state) (u : upd) : state := snd (update u s).

(** ** Tile extraction *)

(** A lozenge is the list of its four vertices in the ac-plane. *)
Definition polygon : Type := list (Z * Z).

(** The dictionary [verts] with its three keys. *)
Record tiles : Type := mkTiles {
  verts_L : list polygon;
  verts_R : list polygon;
  verts_T : list polygon
}.

Definition L_OFFSETS : list (Z * Z) := [(0, 0); (-1, 0); (-1, -1); (0, -1)].
Definition R_OFFSETS : list (Z * Z) := [(0, 0); (-1, -1); (-1, -2); (0, -1)].
Definition T_OFFSETS : list (Z * Z) := [(0, 0); (-1, -1); (0, -1); (1, 0)].

(** [[(x + dx, y + dy) for dx, dy in offsets]] *)
Definition lozenge (offsets : list (Z * Z)) (x y : Z) : polygon :=
  map (fun d => (x + fst d, y + snd d)) offsets.

(** A [for] loop over a list whose body may raise. *)
Fixpoint for_each {A B} (body : B -> A -> result B) (xs : list A) (acc : B)
  : result B :=
  match xs with
  | [] => Ok acc
  | x :: xs' => rbind (body acc x) (for_each body xs')
  end.

(** The body of the inner loop of [get_tiles] at [(k, j)]. *)
Definition tile_cell (s : state) (k j : Z) (verts : tiles) : result tiles :=
  rbind
    (if 0 <? k then
       rbind (St.item2 s k j) (fun h =>
       rbind (St.item2 s k (j - 1)) (fun h' =>
       if h =? h' then
         Ok (mkTiles (verts_L verts ++ [lozenge L_OFFSETS j h])
                     (verts_R verts) (verts_T verts))
       else
         Ok (mkTiles (verts_L verts)
                     (verts_R verts ++ [lozenge R_OFFSETS j h])
                     (verts_T verts))))
     else Ok verts)
    (fun verts =>
       rbind (St.item2 s k j) (fun lo =>
       rbind (St.item2 s (k + 1) j) (fun hi =>
       Ok (mkTiles (verts_L verts) (verts_R verts)
                   (verts_T verts
                    ++ map (fun l => lozenge T_OFFSETS j l)
                           (range2 (lo + 1) hi)))))).

(** [LozengeTiling.get_tiles] *)
Definition get_tiles (self : LozengeTiling) (s : state) : result tiles :=
  let '(a, b, c) := size self in
  for_each
    (fun verts k =>
       for_each (fun verts j => tile_cell s k j verts)
                (range2 1 (a + b + 1)) verts)
    (range (c + 1)) (mkTiles [] [] []).

(** ** The random source and the chain interface *)

(** Equality of Python lists, element by element. *)
Fixpoint list_eqb {A} (eqb : A -> A -> bool) (l1 l2 : list A) : bool :=
  match l1, l2 with
  | [], [] => true
  | x :: l1', y :: l2' => eqb x y && list_eqb eqb l1' l2'
  | _, _ => false
  end.

Definition state_eqb (s0 s1 : state) : bool := list_eqb (list_eqb Z.eqb) s0 s1.

(** The process-wide generator of Python's [random] module: [G] is what
    [random.getstate()] returns, [randint lo hi] draws from it. *)
Class RandomSource (G : Type) : Type := {
  randint : Z -> Z -> G -> result (Z * G)
}.

(** [random.setstate]: the saved value must be a generator state. *)
Definition setstate {G} (saved : option G) : result G :=
  match saved with
  | Some g => Ok g
  | None => Raise TypeError
  end.

(** The three methods [run_cftp] asks of a Markov chain object, and the
    [==] it applies to states. *)
Class MarkovChain (G S U : Type) : Type := {
  mc_min_max_states : S * S;
  mc_new_random_update : G -> result (U * G);
  mc_update : S -> U -> result S;
  mc_eq : S -> S -> bool
}.

(** [LozengeTiling.new_random_update] *)
Definition new_random_update {G} `{RandomSource G} (self : LozengeTiling)
  (g : G) : result (upd * G) :=
  let '(a, b, c) := size self in
  rbind (randint 1 c g) (fun '(k, g1) =>
  rbind (randint 1 (a + b - 1) g1) (fun '(j, g2) =>
  rbind (randint 0 1 g2) (fun '(dy, g3) =>
  Ok ((k, j, dy), g3)))).

(** [update] as seen by the driver: the state it mutated, or the
    exception. *)
Definition update_result (s : state) (u : upd) : result state :=
  match update u s with
  | (Ok _, t) => Ok t
  | (Raise e, _) => Raise e
  end.

#[export] Instance LozengeTiling_chain {G} `{RandomSource G}
  (self : LozengeTiling) : MarkovChain G state upd := {
  mc_min_max_states := min_max_states self;
  mc_new_random_update := new_random_update self;
  mc_update := update_result;
  mc_eq := state_eqb
}.

(** ** The driver [run_cftp]

    The generator is threaded through the driver explicitly.  The
    progress bar only counts steps and is left out. *)

Section CFTP.
Context {G S U : Type} (mc : MarkovChain G S U).

(** An entry [(rng, steps)] of the list [updates]. *)
Abbreviation epoch := (option G * Z)%type (only parsing).

(** The loop [for _ in range(steps)]: one drawn update applied to both
    states. *)
Fixpoint run_steps (n : nat) (s0 s1 : S) (g : G) : result (S * S * G) :=
  match n with
  | O => Ok (s0, s1, g)
  | Datatypes.S n' =>
      rbind (mc_new_random_update g) (fun '(u, g') =>
      rbind (mc_update s0 u) (fun s0' =>
      rbind (mc_update s1 u) (fun s1' =>
      run_steps n' s0' s1' g')))
  end.

(** The loop [for rng, steps in updates]; [rng_next] keeps the generator
    state reached at the end of the first entry. *)
Fixpoint replay (updates : list epoch) (s0 s1 : S) (rng_next : option G)
  (g : G) : result (S * S * option G * G) :=
  match updates with
  | [] => Ok (s0, s1, rng_next, g)
  | (rng, steps) :: rest =>
      rbind (setstate rng) (fun g1 =>
      rbind (run_steps (Z.to_nat steps) s0 s1 g1) (fun '(s0', s1', g2) =>
      let rng_next' :=
        match rng_next with
        | None => Some g2
        | Some r => Some r
        end in
      replay rest s0' s1' rng_next' g2))
  end.

(** How one round of the [while True] loop ends. *)
Inductive round_end : Type :=
| Coupled (s : S)
| LookBack (updates' : list epoch).

(** One round: fresh extremal states, replay of all entries, the test
    [s0 == s1], and on failure [updates.insert(0, (rng_next,
    2**len(updates)))]. *)
Definition cftp_round (updates : list epoch) (g : G)
  : result (round_end * option G * G) :=
  let '(s0, s1) := mc_min_max_states in
  rbind (replay updates s0 s1 None g) (fun '(s0', s1', rng_next, g') =>
  if mc_eq s0' s1' then Ok (Coupled s0', rng_next, g')
  else Ok (LookBack ((rng_next, 2 ^ Z.of_nat (length updates)) :: updates),
           rng_next, g')).

(** The [while True] loop, at most [fuel] rounds; [None] when the rounds
    run out before the two states meet. *)
Fixpoint cftp_loop (fuel : nat) (updates : list epoch) (g : G)
  : result (option (S * G)) :=
  match fuel with
  | O => Ok None
  | Datatypes.S fuel' =>
      rbind (cftp_round updates g) (fun '(e, rng_next, g') =>
      match e with
      | Coupled s => rbind (setstate rng_next) (fun g'' => Ok (Some (s, g'')))
      | LookBack updates' => cftp_loop fuel' updates' g'
      end)
  end.

(** [run_cftp] *)
Definition run_cftp (fuel : nat) (g : G) : result (option (S * G)) :=
  cftp_loop fuel [(Some g, 1)] g.

(** The list [updates] and the generator after [n] rounds that all
    failed to couple, starting as [run_cftp] does. *)
Inductive after_rounds (g0 : G) : nat -> list epoch -> G -> Prop :=
| after_0 : after_rounds g0 0 [(Some g0, 1)] g0
| after_S n updates g updates' rng_next g' :
    after_rounds g0 n updates g ->
    cftp_round updates g = Ok (LookBack updates', rng_next, g') ->
    after_rounds g0 (Datatypes.S n) updates' g'.

(** Total number of steps in a list of entries. *)
Definition total_steps (updates : list epoch) : Z :=
  fold_right Z.add 0 (map snd updates).

(** The step counts [2^(n-1), ..., 4, 2, 1]. *)
Fixpoint powers_desc (n : nat) : list Z :=
  match n with
  | O => []
  | Datatypes.S n' => 2 ^ Z.of_nat n' :: powers_desc n'
  end.

End CFTP.

(** A linear congruential generator, to run the driver on concrete
    inputs. *)
Definition lcg_next (g : Z) : Z := (1103515245 * g + 12345) mod 2147483648.

#[export] Instance lcg_source : RandomSource Z := {
  randint lo hi g :=
    if hi <? lo then Raise ValueError
    else let g' := lcg_next g in
         Ok (lo + (g' / 65536) mod (hi - lo + 1), g')
}.

Definition hexagon_222 : MarkovChain Z state upd :=
  LozengeTiling_chain (mkLozengeTiling (2, 2, 2)).

(** ** States of the (a x b x c) hexagon, their invariants and order

    The code has no checker for these; they are the shape, the two
    invariants and the pointwise order of the data model, as executable
    predicates. *)

(** A state has [c + 2] paths of [a + b + 1] heights each. *)
Definition shape_ok (a b c : Z) (s : state) : bool :=
  (Z.of_nat (length s) =? c + 2)
  && forallb (fun row : list Z => Z.of_nat (length row) =? a + b + 1) s.

(** Every path is nondecreasing in [j] and rises by at most 1 a step. *)
Definition path_monotone (a b c : Z) (s : state) : bool :=
  forallb (fun k =>
    forallb (fun j =>
      match St.item2 s k j, St.item2 s k (j + 1) with
      | Ok h, Ok h' => (h <=? h') && (h' <=? h + 1)
      | _, _ => false
      end) (range (a + b))) (range (c + 2)).

(** Path [k] never lies above path [k + 1]. *)
Definition non_crossing (a b c : Z) (s : state) : bool :=
  forallb (fun k =>
    forallb (fun j =>
      match St.item2 s k j, St.item2 s (k + 1) j with
      | Ok h, Ok h' => h <=? h'
      | _, _ => false
      end) (range (a + b + 1))) (range (c + 1)).

Definition invariants (a b c : Z) (s : state) : bool :=
  shape_ok a b c s && path_monotone a b c s && non_crossing a b c s.

(** The pointwise order on states. *)
Definition state_le (a b c : Z) (s s' : state) : bool :=
  forallb (fun k =>
    forallb (fun j =>
      match St.item2 s k j, St.item2 s' k j with
      | Ok h, Ok h' => h <=? h'
      | _, _ => false
      end) (range (a + b + 1))) (range (c + 2)).

(** The height at [(k, j)], 0 where the lookup raises. *)
Definition hgt (s : state) (k j : Z) : Z :=
  match St.item2 s k j with
  | Ok h => h
  | Raise _ => 0
  end.

(** The legality conditions of the two pushes, as the specification
    words them: a push whose neighbourhood does not exist is not legal. *)
Definition up_legal (s : state) (k j : Z) : bool :=
  match St.item2 s k (j - 1), St.item2 s k j,
        St.item2 s k (j + 1), St.item2 s (k + 1) j with
  | Ok x, Ok y, Ok z, Ok w => (x =? y) && (y <? z) && (z <? w)
  | _, _, _, _ => false
  end.

Definition down_legal (s : state) (k j : Z) : bool :=
  match St.item2 s (k - 1) j, St.item2 s k (j - 1),
        St.item2 s k j, St.item2 s k (j + 1) with
  | Ok x, Ok y, Ok z, Ok w => (x <? y) && (y <? z) && (z =? w)
  | _, _, _, _ => false
  end.

Definition legal (s : state) (u : upd) : bool :=
  let '(k, j, dy) := u in
  if dy =? 1 then up_legal s k j else down_legal s k j.

(** ** Auxiliary definitions *)

(** The state with entry [(k, j)] replaced by [v]. *)
Definition poke (s : state) (k j : nat) (v : Z) : state :=
  match s !! k with
  | Some row => <[k := <[j := v]> row]> s
  | None => s
  end.

(** The change [update] makes to entry [(k, j)] of a well-shaped state. *)
Definition delta (s : state) (u : upd) : Z :=
  let '(k, j, dy) := u in
  if dy =? 1 then (if up_legal s k j then 1 else 0)
  else (if down_legal s k j then -1 else 0).

(** What one visit of [(k, j)] contributes to each key. *)
Definition cell_L (s : state) (k j : Z) : list polygon :=
  if (0 <? k) && (hgt s k j =? hgt s k (j - 1))
  then [lozenge L_OFFSETS j (hgt s k j)] else [].

Definition cell_R (s : state) (k j : Z) : list polygon :=
  if (0 <? k) && negb (hgt s k j =? hgt s k (j - 1))
  then [lozenge R_OFFSETS j (hgt s k j)] else [].

Definition cell_T (s : state) (k j : Z) : list polygon :=
  map (fun l => lozenge T_OFFSETS j l)
      (range2 (hgt s k j + 1) (hgt s (k + 1) j)).

Definition add_tiles (v : tiles) (l r t : list polygon) : tiles :=
  mkTiles (verts_L v ++ l) (verts_R v ++ r) (verts_T v ++ t).

(** ** Tiling states

    What the code keeps beyond the two invariants: neighbouring paths
    stay strictly apart, every path [k] runs from height [k] to height
    [k + b], and the paths [0] and [c + 1] keep the heights
    [min_max_states] gave them. *)

Definition strict_non_crossing (a b c : Z) (s : state) : bool :=
  forallb (fun k =>
    forallb (fun j =>
      match St.item2 s k j, St.item2 s (k + 1) j with
      | Ok h, Ok h' => h <? h'
      | _, _ => false
      end) (range (a + b + 1))) (range (c + 1)).

Definition boundary_ok (a b c : Z) (s : state) : bool :=
  forallb (fun k =>
    match St.item2 s k 0, St.item2 s k (a + b) with
    | Ok h, Ok h' => (h =? k) && (h' =? k + b)
    | _, _ => false
    end) (range (c + 2))
  && forallb (fun j =>
    match St.item2 s 0 j, St.item2 s (c + 1) j with
    | Ok h, Ok h' => (h =? Z.max (j - a) 0) && (h' =? c + 1 + Z.min j b)
    | _, _ => false
    end) (range (a + b + 1)).

Definition tiling_state (a b c : Z) (s : state) : bool :=
  invariants a b c s && strict_non_crossing a b c s && boundary_ok a b c s.

(** A sequence of updates applied in turn to one state. *)
Fixpoint apply_updates (us : list upd) (s : state) : result state :=
  match us with
  | [] => Ok s
  | u :: us' => rbind (update_result s u) (apply_updates us')
  end.

(** An update inside the hexagon. *)
Definition in_hexagon (a b c : Z) (u : upd) : Prop :=
  let '(k, j, dy) := u in 1 <= k <= c /\ 1 <= j <= a + b - 1.

(** What [random.randint] promises: a value within the bounds when there
    is one, [ValueError] on an empty range. *)
Definition randint_in_range (G : Type) `{RandomSource G} : Prop :=
  forall lo hi (g : G), lo <= hi ->
    exists v g', randint lo hi g = Ok (v, g') /\ lo <= v <= hi.

Definition randint_empty_raises (G : Type) `{RandomSource G} : Prop :=
  forall lo hi (g : G), hi < lo -> randint lo hi g = Raise ValueError.

Definition sumZ (l : list Z) : Z := fold_right Z.add 0 l.

(** ** The updates a round draws

    The same loops as [run_steps] and [replay], keeping only what is
    drawn from the generator. *)

Section Draws.
Context {G S U : Type} (mc : MarkovChain G S U).

Fixpoint draw_steps (n : nat) (g : G) : result (list U * G) :=
  match n with
  | O => Ok ([], g)
  | Datatypes.S n' =>
      rbind (mc_new_random_update g) (fun '(u, g') =>
      rbind (draw_steps n' g') (fun '(us, g'') => Ok (u :: us, g'')))
  end.

Fixpoint draw_epochs (updates : list (option G * Z)) : result (list U) :=
  match updates with
  | [] => Ok []
  | (rng, steps) :: rest =>
      rbind (setstate rng) (fun g =>
      rbind (draw_steps (Z.to_nat steps) g) (fun '(us, _) =>
      rbind (draw_epochs rest) (fun us' => Ok (us ++ us'))))
  end.

(** The updates applied in turn, through the chain's [update]. *)
Fixpoint fold_updates (us : list U) (s : S) : result S :=
  match us with
  | [] => Ok s
  | u :: us' => rbind (mc_update s u) (fold_updates us')
  end.

End Draws.

(** ** The modular group: automaton and traversal

    [Misc/Modular_Group.py].  Words are Python strings.  The points of a
    domain are complex floating-point numbers or [None] for infinity; the
    traversal does not look into them, so the numbers and the three
    operations [z + 1], [z - 1], [-1 / z] on them are parameters.  A
    dictionary is the list of its items in the order written. *)

Module ModularGroup.
Import Stdlib.Strings.String.
Local Open Scope string_scope.

(** Looking up a key in a dictionary: the value, or [KeyError]. *)
Inductive keyed (V : Type) : Type :=
| Found (v : V)
| KeyError.

Arguments Found {V} v.
Arguments KeyError {V}.

Fixpoint dict_get {K V} (eqb : K -> K -> bool) (d : list (K * V)) (k : K)
  : keyed V :=
  match d with
  | [] => KeyError
  | (k', v) :: d' => if eqb k' k then Found v else dict_get eqb d' k
  end.

Definition AUTOMATON : list (Z * list (string * Z)) :=
  [(0, [("A", 1); ("B", 2); ("C", 3)]);
   (1, [("A", 1); ("C", 3)]);
   (2, [("B", 2); ("C", 3)]);
   (3, [("A", 4); ("B", 5)]);
   (4, [("A", 8)]);
   (5, [("B", 6)]);
   (6, [("B", 2); ("C", 7)]);
   (7, [("A", 4)]);
   (8, [("A", 1); ("C", 9)]);
   (9, [("B", 5)])]%Z.

(** How a run of the generator [traverse] ends. *)
Inductive stop : Type :=
| Finished
| Raised
| OutOfFuel.

Section Points.
Variable Cx : Type.
Variables add1 sub1 neg_inv : Cx -> Cx.
Variable zero : Cx.
Variable is_zero : Cx -> bool.

(** A point: a number, or [None] for infinity. *)
Abbreviation point := (option Cx) (only parsing).

(** The three generators. *)
Definition A (z : point) : point :=
  match z with
  | None => None
  | Some w => Some (add1 w)
  end.

Definition B (z : point) : point :=
  match z with
  | None => None
  | Some w => Some (sub1 w)
  end.

Definition C (z : point) : point :=
  match z with
  | Some w => if is_zero w then None else Some (neg_inv w)
  | None => Some zero
  end.

(** [transform] *)
Definition transform (symbol : string) (domain : list point)
  : keyed (list point) :=
  match dict_get String.eqb [("A", A); ("B", B); ("C", C)] symbol with
  | Found func => Found (map func domain)
  | KeyError => KeyError
  end.

(** An entry [(word, state, domain)] of the queue. *)
Abbreviation item := (string * Z * list (option Cx))%type (only parsing).

(** The loop [for symbol, to in AUTOMATON[state].items()] appending to
    the queue. *)
Fixpoint push_children (word : string) (domain : list point)
  (row : list (string * Z)) (queue : list item) : keyed (list item) :=
  match row with
  | [] => Found queue
  | (symbol, to) :: row' =>
      match transform symbol domain with
      | Found d => push_children word domain row'
                                 (queue ++ [(word ++ symbol, to, d)])
      | KeyError => KeyError
      end
  end.

(** The loop [while queue] of [traverse]: the items yielded, in order,
    and how the run ended. *)
Fixpoint traverse_loop (fuel : nat) (length : Z) (queue : list item)
  : list item * stop :=
  match queue with
  | [] => ([], Finished)
  | (word, state, domain) :: queue' =>
      match fuel with
      | O => ([], OutOfFuel)
      | S fuel' =>
          if (Z.of_nat (String.length word) <? length)%Z then
            match dict_get Z.eqb AUTOMATON state with
            | Found row =>
                match push_children word domain row queue' with
                | Found queue'' =>
                    let '(ys, e) := traverse_loop fuel' length queue'' in
                    ((word, state, domain) :: ys, e)
                | KeyError => ([(word, state, domain)], Raised)
                end
            | KeyError => ([(word, state, domain)], Raised)
            end
          else
            let '(ys, e) := traverse_loop fuel' length queue' in
            ((word, state, domain) :: ys, e)
      end
  end.

(** [traverse] *)
Definition traverse (fuel : nat) (length : Z) (start_domain : list point)
  : list item * stop :=
  traverse_loop fuel length [("", 0%Z, start_domain)].

(** *** The automaton as a transition function *)

Definition step (state : Z) (symbol : string) : option Z :=
  match dict_get Z.eqb AUTOMATON state with
  | Found row =>
      match dict_get String.eqb row symbol with
      | Found to => Some to
      | KeyError => None
      end
  | KeyError => None
  end.

(** The state reached from [state] by reading [word], if the automaton
    accepts it. *)
Fixpoint run (state : Z) (word : string) : option Z :=
  match word with
  | EmptyString => Some state
  | String ch word' =>
      match step state (String ch EmptyString) with
      | Some state' => run state' word'
      | None => None
      end
  end.

(** The generator a symbol names; anything else leaves points alone. *)
Definition gen (symbol : string) : point -> point :=
  match dict_get String.eqb [("A", A); ("B", B); ("C", C)] symbol with
  | Found func => func
  | KeyError => fun z => z
  end.

(** The domain [word] makes of [domain], first symbol first. *)
Fixpoint apply_word (word : string) (domain : list point) : list point :=
  match word with
  | EmptyString => domain
  | String ch word' => apply_word word' (map (gen (String ch EmptyString)) domain)
  end.

(** What processing an item appends to the queue. *)
Definition kids (length : Z) (x : item) : list item :=
  let '(word, state, domain) := x in
  if (Z.of_nat (String.length word) <? length)%Z then
    match dict_get Z.eqb AUTOMATON state with
    | Found row =>
        map (fun p => (word ++ fst p, snd p, map (gen (fst p)) domain)) row
    | KeyError => []
    end
  else [].

(** [n] levels of the tree below the items [q], level by level. *)
Fixpoint levels (n : nat) (length : Z) (q : list item) : list item :=
  match n with
  | O => []
  | S n' => (q ++ levels n' length (flat_map (kids length) q))%list
  end.

(** The keys of the rows of the automaton. *)
Definition symbol_ok (p : string * Z) : Prop :=
  fst p = "A" \/ fst p = "B" \/ fst p = "C".

(** Items whose state is a state of the automaton. *)
Definition valid_item (x : item) : Prop := (0 <= snd (fst x) <= 9)%Z.

(** Items of depth [i]: a word of [i] symbols and a state of the
    automaton. *)
Definition depth_ok (i : nat) (x : item) : Prop :=
  String.length (fst (fst x)) = i /\ (0 <= snd (fst x) <= 9)%Z.

(** An item of depth [i] that the automaton and the generators
    account for. *)
Definition sound (start : list point) (i : nat) (x : item) : Prop :=
  String.length (fst (fst x)) = i /\
  run 0 (fst (fst x)) = Some (snd (fst x)) /\
  snd x = apply_word (fst (fst x)) start.

End Points.

(** Integers in place of the complex numbers, to run the traversal. *)
Definition traverse_Z : nat -> Z -> list (option Z) -> _ :=
  traverse Z (fun z => z + 1)%Z (fun z => z - 1)%Z (fun z => -1 / z)%Z 0%Z
           (fun z => z =? 0)%Z.

End ModularGroup.

(** ** Running the definitions *)

Example min_max_111 :
  min_max_states (mkLozengeTiling (1, 1, 1)) =
  ([[0; 0; 1]; [1; 2; 2]; [2; 3; 3]], [[0; 0; 1]; [1; 1; 2]; [2; 3; 3]]).
Proof. reflexivity. Qed.

Example update_up_111 :
  update (1, 1, 1) [[0; 0; 1]; [1; 1; 2]; [2; 3; 3]] =
  (Ok tt, [[0; 0; 1]; [1; 2; 2]; [2; 3; 3]]).
Proof. reflexivity. Qed.

Example update_down_111 :
  update (1, 1, 0) [[0; 0; 1]; [1; 2; 2]; [2; 3; 3]] =
  (Ok tt, [[0; 0; 1]; [1; 1; 2]; [2; 3; 3]]).
Proof. reflexivity. Qed.

Example run_cftp_111 :
  run_cftp (LozengeTiling_chain (mkLozengeTiling (1, 1, 1))) 1 0 =
  Ok (Some ([[0; 0; 1]; [1; 1; 2]; [2; 3; 3]], 654583775)).
Proof. reflexivity. Qed.

Example get_tiles_111 :
  get_tiles (mkLozengeTiling (1, 1, 1)) [[0; 0; 1]; [1; 1; 2]; [2; 3; 3]] =
  Ok (mkTiles [[(1, 1); (0, 1); (0, 0); (1, 0)]]
              [[(2, 2); (1, 1); (1, 0); (2, 1)]]
              [[(1, 2); (0, 1); (1, 1); (2, 2)]]).
Proof. reflexivity. Qed.

(** ** Indexing lemmas *)

Lemma range_In (n i : Z) : In i (range n) <-> 0 <= i < n.
Proof.
  unfold range. rewrite <- list_elem_of_In, elem_of_seqZ. lia.
Qed.

Lemma range2_In (lo hi i : Z) : In i (range2 lo hi) <-> lo <= i < hi.
Proof.
  unfold range2. rewrite <- list_elem_of_In, elem_of_seqZ. lia.
Qed.

Lemma length_range2 (lo hi : Z) : length (range2 lo hi) = Z.to_nat (hi - lo).
Proof. unfold range2. apply length_seqZ. Qed.

Lemma norm_index_nonneg (n : nat) (i : Z) :
  0 <= i < Z.of_nat n -> norm_index n i = Some (Z.to_nat i).
Proof.
  intros H. unfold norm_index.
  destruct (Z.ltb_spec i 0); [lia|].
  destruct (Z.ltb_spec i (Z.of_nat n)); [reflexivity|lia].
Qed.

Lemma getitem_nonneg {A} (l : list A) (i : Z) (x : A) :
  0 <= i -> l !! Z.to_nat i = Some x -> getitem l i = Ok x.
Proof.
  intros Hi Hl. unfold getitem.
  rewrite norm_index_nonneg.
  - now rewrite Hl.
  - apply lookup_lt_Some in Hl. lia.
Qed.

Lemma shape_ok_spec (a b c : Z) (s : state) :
  shape_ok a b c s = true <->
  Z.of_nat (length s) = c + 2 /\
  forall row, In row s -> Z.of_nat (length row) = a + b + 1.
Proof.
  unfold shape_ok. rewrite andb_true_iff, Z.eqb_eq, forallb_forall.
  split; intros [H1 H2]; split; auto; intros row Hr.
  - apply Z.eqb_eq. auto.
  - apply Z.eqb_eq. auto.
Qed.

Lemma shape_row (a b c : Z) (s : state) (k : Z) :
  shape_ok a b c s = true -> 0 <= k <= c + 1 ->
  exists row, s !! Z.to_nat k = Some row /\ getitem s k = Ok row /\
              Z.of_nat (length row) = a + b + 1.
Proof.
  intros [Hlen Hrows]%shape_ok_spec Hk.
  destruct (lookup_lt_is_Some_2 s (Z.to_nat k)) as [row Hrow]; [lia|].
  exists row. split; [assumption|]. split.
  - apply getitem_nonneg; [lia|assumption].
  - apply Hrows. apply list_elem_of_In. eapply list_elem_of_lookup_2. eassumption.
Qed.

Lemma shape_item2 (a b c : Z) (s : state) (k j : Z) :
  shape_ok a b c s = true -> 0 <= k <= c + 1 -> 0 <= j <= a + b ->
  St.item2 s k j = Ok (hgt s k j).
Proof.
  intros Hs Hk Hj.
  destruct (shape_row a b c s k Hs Hk) as (row & Hrow & Hget & Hlen).
  destruct (lookup_lt_is_Some_2 row (Z.to_nat j)) as [h Hh]; [lia|].
  assert (E : St.item2 s k j = Ok h).
  { unfold St.item2. rewrite Hget. simpl. apply getitem_nonneg; [lia|assumption]. }
  unfold hgt. now rewrite E.
Qed.

Lemma hgt_lookup (s : state) (k j : Z) (row : list Z) (h : Z) :
  0 <= k -> 0 <= j ->
  s !! Z.to_nat k = Some row -> row !! Z.to_nat j = Some h ->
  St.item2 s k j = Ok h /\ hgt s k j = h.
Proof.
  intros Hk Hj Hrow Hh.
  assert (E : St.item2 s k j = Ok h).
  { unfold St.item2. rewrite (getitem_nonneg s k row Hk Hrow). simpl.
    now apply getitem_nonneg. }
  split; [assumption|]. unfold hgt. now rewrite E.
Qed.

(** ** The invariants and the order, pointwise *)

Lemma grid_forallb (n m : Z) (f : Z -> Z -> bool) :
  forallb (fun k => forallb (fun j => f k j) (range m)) (range n) = true <->
  forall k j, 0 <= k < n -> 0 <= j < m -> f k j = true.
Proof.
  rewrite forallb_forall. split.
  - intros H k j Hk Hj.
    specialize (H k (proj2 (range_In n k) Hk)).
    rewrite forallb_forall in H. apply H. now apply range_In.
  - intros H k Hk%range_In. apply forallb_forall.
    intros j Hj%range_In. now apply H.
Qed.

Section Pointwise.
Variables a b c : Z.
Variable s : state.
Hypothesis Hshape : shape_ok a b c s = true.

Lemma path_monotone_spec :
  path_monotone a b c s = true <->
  forall k j, 0 <= k <= c + 1 -> 0 <= j < a + b ->
    hgt s k j <= hgt s k (j + 1) <= hgt s k j + 1.
Proof.
  unfold path_monotone. rewrite grid_forallb.
  split; intros H k j Hk Hj.
  - specialize (H k j ltac:(lia) Hj).
    rewrite !(shape_item2 a b c) in H by (assumption || lia).
    apply andb_true_iff in H. lia.
  - rewrite !(shape_item2 a b c) by (assumption || lia).
    specialize (H k j ltac:(lia) Hj).
    apply andb_true_iff. lia.
Qed.

Lemma non_crossing_spec :
  non_crossing a b c s = true <->
  forall k j, 0 <= k <= c -> 0 <= j <= a + b ->
    hgt s k j <= hgt s (k + 1) j.
Proof.
  unfold non_crossing. rewrite grid_forallb.
  split; intros H k j Hk Hj.
  - specialize (H k j ltac:(lia) ltac:(lia)).
    rewrite !(shape_item2 a b c) in H by (assumption || lia).
    lia.
  - rewrite !(shape_item2 a b c) by (assumption || lia).
    specialize (H k j ltac:(lia) ltac:(lia)). lia.
Qed.

Lemma state_le_spec (s' : state) :
  shape_ok a b c s' = true ->
  state_le a b c s s' = true <->
  forall k j, 0 <= k <= c + 1 -> 0 <= j <= a + b ->
    hgt s k j <= hgt s' k j.
Proof.
  intros Hshape'. unfold state_le. rewrite grid_forallb.
  split; intros H k j Hk Hj.
  - specialize (H k j ltac:(lia) ltac:(lia)).
    rewrite !(shape_item2 a b c) in H by (assumption || lia).
    lia.
  - rewrite !(shape_item2 a b c) by (assumption || lia).
    specialize (H k j ltac:(lia) ltac:(lia)). lia.
Qed.

Lemma invariants_spec :
  invariants a b c s = true <->
  (forall k j, 0 <= k <= c + 1 -> 0 <= j < a + b ->
     hgt s k j <= hgt s k (j + 1) <= hgt s k j + 1) /\
  (forall k j, 0 <= k <= c -> 0 <= j <= a + b ->
     hgt s k j <= hgt s (k + 1) j).
Proof.
  unfold invariants. rewrite !andb_true_iff.
  rewrite path_monotone_spec, non_crossing_spec. tauto.
Qed.
End Pointwise.

Lemma invariants_shape (a b c : Z) (s : state) :
  invariants a b c s = true -> shape_ok a b c s = true.
Proof.
  unfold invariants. rewrite !andb_true_iff. tauto.
Qed.

(** ** Writing one entry *)

Lemma shape_poke (a b c : Z) (s : state) (k j : nat) (v : Z) :
  shape_ok a b c s = true -> shape_ok a b c (poke s k j v) = true.
Proof.
  intros Hs. unfold poke. destruct (s !! k) as [row|] eqn:Hrow; [|assumption].
  apply shape_ok_spec in Hs as [Hlen Hrows]. apply shape_ok_spec. split.
  - now rewrite length_insert.
  - intros r Hr%list_elem_of_In.
    apply list_elem_of_lookup in Hr as [i Hi].
    destruct (decide (i = k)) as [->|Hne].
    + rewrite list_lookup_insert_eq in Hi by (eapply lookup_lt_Some; eassumption).
      injection Hi as <-. rewrite length_insert.
      apply Hrows, list_elem_of_In. eapply list_elem_of_lookup_2. eassumption.
    + rewrite list_lookup_insert_ne in Hi by congruence.
      apply Hrows, list_elem_of_In. eapply list_elem_of_lookup_2. eassumption.
Qed.

Lemma hgt_poke (a b c : Z) (s : state) (k j k' j' v : Z) :
  shape_ok a b c s = true ->
  0 <= k <= c + 1 -> 0 <= j <= a + b ->
  0 <= k' <= c + 1 -> 0 <= j' <= a + b ->
  hgt (poke s (Z.to_nat k) (Z.to_nat j) v) k' j' =
  if (k' =? k) && (j' =? j) then v else hgt s k' j'.
Proof.
  intros Hs Hk Hj Hk' Hj'.
  destruct (shape_row a b c s k Hs Hk) as (row & Hrow & _ & Hlen).
  destruct (shape_row a b c s k' Hs Hk') as (row' & Hrow' & _ & Hlen').
  destruct (lookup_lt_is_Some_2 row' (Z.to_nat j')) as [h' Hh']; [lia|].
  destruct (hgt_lookup s k' j' row' h') as [_ Hold]; try (assumption || lia).
  unfold poke. rewrite Hrow.
  destruct (Z.eqb_spec k' k) as [->|Hne]; simpl.
  - assert (row' = row) by congruence. subst row'.
    destruct (Z.eqb_spec j' j) as [->|Hnej].
    + eapply hgt_lookup; try lia.
      * apply list_lookup_insert_eq. eapply lookup_lt_Some; eassumption.
      * apply list_lookup_insert_eq. lia.
    + rewrite Hold. eapply hgt_lookup; try lia.
      * apply list_lookup_insert_eq. eapply lookup_lt_Some; eassumption.
      * rewrite list_lookup_insert_ne by lia. assumption.
  - rewrite Hold. eapply hgt_lookup; try lia.
    + rewrite list_lookup_insert_ne by lia. eassumption.
    + assumption.
Qed.

Lemma aug_add_in_range (a b c : Z) (s : state) (k j d : Z) :
  shape_ok a b c s = true -> 0 <= k <= c + 1 -> 0 <= j <= a + b ->
  St.aug_add k j d s =
  (Ok tt, poke s (Z.to_nat k) (Z.to_nat j) (hgt s k j + d)).
Proof.
  intros Hs Hk Hj.
  destruct (shape_row a b c s k Hs Hk) as (row & Hrow & Hget & Hlen).
  destruct (lookup_lt_is_Some_2 row (Z.to_nat j)) as [h Hh]; [lia|].
  destruct (hgt_lookup s k j row h) as [_ Hh']; try (assumption || lia).
  unfold St.aug_add, poke. rewrite Hget, Hrow.
  rewrite (getitem_nonneg row j h) by (assumption || lia).
  unfold setitem. rewrite !norm_index_nonneg.
  - now rewrite Hh'.
  - apply lookup_lt_Some in Hrow. lia.
  - lia.
Qed.

(** ** What [update] computes *)

(** Evaluating a condition never changes the state. *)
Lemma push_up_cond_state (k j : Z) (s : state) :
  snd (push_up_cond k j s) = s.
Proof.
  unfold push_up_cond, St.bind, St.read, St.ret.
  destruct (St.item2 s k (j - 1)) as [x|]; [|reflexivity].
  destruct (St.item2 s k j) as [y|]; [|reflexivity].
  destruct (negb (x =? y)); [reflexivity|].
  destruct (St.item2 s k (j + 1)) as [z|]; [|reflexivity].
  destruct (negb (y <? z)); [reflexivity|].
  destruct (St.item2 s (k + 1) j) as [w|]; reflexivity.
Qed.

Lemma push_down_cond_state (k j : Z) (s : state) :
  snd (push_down_cond k j s) = s.
Proof.
  unfold push_down_cond, St.bind, St.read, St.ret.
  destruct (St.item2 s (k - 1) j) as [x|]; [|reflexivity].
  destruct (St.item2 s k (j - 1)) as [y|]; [|reflexivity].
  destruct (negb (x <? y)); [reflexivity|].
  destruct (St.item2 s k j) as [z|]; [|reflexivity].
  destruct (negb (y <? z)); [reflexivity|].
  destruct (St.item2 s k (j + 1)) as [w|]; reflexivity.
Qed.

(** The chained comparison yields [True] exactly when the condition of
    the specification holds; otherwise it yields [False] or raises. *)
Lemma push_up_cond_true (k j : Z) (s : state) :
  fst (push_up_cond k j s) = Ok true <-> up_legal s k j = true.
Proof.
  unfold push_up_cond, St.bind, St.read, St.ret, up_legal.
  destruct (St.item2 s k (j - 1)) as [x|e1]; simpl; [|easy].
  destruct (St.item2 s k j) as [y|e2]; simpl; [|easy].
  destruct (x =? y); simpl; [|now destruct (St.item2 s k (j + 1)), (St.item2 s (k + 1) j)].
  destruct (St.item2 s k (j + 1)) as [z|e3]; simpl; [|easy].
  destruct (y <? z); simpl; [|now destruct (St.item2 s (k + 1) j)].
  destruct (St.item2 s (k + 1) j) as [w|e4]; simpl; [|easy].
  split; [now intros [= ->]|now intros ->].
Qed.

Lemma push_down_cond_true (k j : Z) (s : state) :
  fst (push_down_cond k j s) = Ok true <-> down_legal s k j = true.
Proof.
  unfold push_down_cond, St.bind, St.read, St.ret, down_legal.
  destruct (St.item2 s (k - 1) j) as [x|e1]; simpl; [|easy].
  destruct (St.item2 s k (j - 1)) as [y|e2]; simpl; [|easy].
  destruct (x <? y); simpl; [|now destruct (St.item2 s k j), (St.item2 s k (j + 1))].
  destruct (St.item2 s k j) as [z|e3]; simpl; [|easy].
  destruct (y <? z); simpl; [|now destruct (St.item2 s k (j + 1))].
  destruct (St.item2 s k (j + 1)) as [w|e4]; simpl; [|easy].
  split; [now intros [= ->]|now intros ->].
Qed.

Section InRange.
Variables a b c : Z.
Variable s : state.
Variables k j : Z.
Hypothesis Hshape : shape_ok a b c s = true.
Hypothesis Hk : 1 <= k <= c.
Hypothesis Hj : 1 <= j <= a + b - 1.

Lemma up_legal_hgt :
  up_legal s k j =
  (hgt s k (j - 1) =? hgt s k j) && (hgt s k j <? hgt s k (j + 1))
  && (hgt s k (j + 1) <? hgt s (k + 1) j).
Proof.
  unfold up_legal.
  now rewrite !(shape_item2 a b c s) by (assumption || lia).
Qed.

Lemma down_legal_hgt :
  down_legal s k j =
  (hgt s (k - 1) j <? hgt s k (j - 1)) && (hgt s k (j - 1) <? hgt s k j)
  && (hgt s k j =? hgt s k (j + 1)).
Proof.
  unfold down_legal.
  now rewrite !(shape_item2 a b c s) by (assumption || lia).
Qed.

Lemma push_up_cond_in_range :
  push_up_cond k j s = (Ok (up_legal s k j), s).
Proof.
  rewrite up_legal_hgt.
  unfold push_up_cond, St.bind, St.read, St.ret.
  rewrite !(shape_item2 a b c s) by (assumption || lia).
  destruct (hgt s k (j - 1) =? hgt s k j); simpl; [|reflexivity].
  rewrite !(shape_item2 a b c s) by (assumption || lia).
  destruct (hgt s k j <? hgt s k (j + 1)); simpl; [|reflexivity].
  now rewrite !(shape_item2 a b c s) by (assumption || lia).
Qed.

Lemma push_down_cond_in_range :
  push_down_cond k j s = (Ok (down_legal s k j), s).
Proof.
  rewrite down_legal_hgt.
  unfold push_down_cond, St.bind, St.read, St.ret.
  rewrite !(shape_item2 a b c s) by (assumption || lia).
  destruct (hgt s (k - 1) j <? hgt s k (j - 1)); simpl; [|reflexivity].
  rewrite !(shape_item2 a b c s) by (assumption || lia).
  destruct (hgt s k (j - 1) <? hgt s k j); simpl; [|reflexivity].
  now rewrite !(shape_item2 a b c s) by (assumption || lia).
Qed.

(** On a well-shaped state and an update inside the hexagon, [update]
    returns normally and adds [delta] to the one entry [(k, j)]. *)
Lemma update_in_range (dy : Z) :
  update (k, j, dy) s =
  (Ok tt, poke s (Z.to_nat k) (Z.to_nat j)
               (hgt s k j + delta s (k, j, dy))).
Proof.
  assert (Hid : poke s (Z.to_nat k) (Z.to_nat j) (hgt s k j + 0) = s).
  { destruct (shape_row a b c s k Hshape) as (row & Hrow & _ & Hlen); [lia|].
    destruct (lookup_lt_is_Some_2 row (Z.to_nat j)) as [h Hh]; [lia|].
    destruct (hgt_lookup s k j row h) as [_ ->]; try (assumption || lia).
    unfold poke. rewrite Hrow, Z.add_0_r.
    rewrite (list_insert_id row) by assumption.
    now apply list_insert_id. }
  unfold update, delta, St.bind.
  destruct (dy =? 1).
  - rewrite push_up_cond_in_range.
    destruct (up_legal s k j).
    + apply (aug_add_in_range a b c); (assumption || lia).
    + unfold St.ret. now rewrite Hid.
  - rewrite push_down_cond_in_range.
    destruct (down_legal s k j).
    + apply (aug_add_in_range a b c); (assumption || lia).
    + unfold St.ret. now rewrite Hid.
Qed.

Lemma updated_shape (dy : Z) :
  shape_ok a b c (updated s (k, j, dy)) = true.
Proof.
  unfold updated. rewrite update_in_range. simpl.
  now apply shape_poke.
Qed.

Lemma updated_hgt (dy k' j' : Z) :
  0 <= k' <= c + 1 -> 0 <= j' <= a + b ->
  hgt (updated s (k, j, dy)) k' j' =
  if (k' =? k) && (j' =? j) then hgt s k j + delta s (k, j, dy)
  else hgt s k' j'.
Proof.
  intros Hk' Hj'. unfold updated. rewrite update_in_range. simpl.
  apply (hgt_poke a b c); (assumption || lia).
Qed.

(** [delta] in terms of the heights around [(k, j)]. *)
Lemma delta_spec (dy : Z) :
  let up := hgt s k (j - 1) = hgt s k j /\ hgt s k j < hgt s k (j + 1)
            /\ hgt s k (j + 1) < hgt s (k + 1) j in
  let down := hgt s (k - 1) j < hgt s k (j - 1)
              /\ hgt s k (j - 1) < hgt s k j
              /\ hgt s k j = hgt s k (j + 1) in
  (dy = 1 /\ up /\ delta s (k, j, dy) = 1) \/
  (dy = 1 /\ ~ up /\ delta s (k, j, dy) = 0) \/
  (dy <> 1 /\ down /\ delta s (k, j, dy) = -1) \/
  (dy <> 1 /\ ~ down /\ delta s (k, j, dy) = 0).
Proof.
  unfold delta. rewrite up_legal_hgt, down_legal_hgt.
  destruct (Z.eqb_spec dy 1) as [Hdy|Hdy]; simpl.
  - destruct (Z.eqb_spec (hgt s k (j - 1)) (hgt s k j));
      destruct (Z.ltb_spec (hgt s k j) (hgt s k (j + 1)));
      destruct (Z.ltb_spec (hgt s k (j + 1)) (hgt s (k + 1) j));
      simpl; lia.
  - destruct (Z.ltb_spec (hgt s (k - 1) j) (hgt s k (j - 1)));
      destruct (Z.ltb_spec (hgt s k (j - 1)) (hgt s k j));
      destruct (Z.eqb_spec (hgt s k j) (hgt s k (j + 1)));
      simpl; lia.
Qed.
End InRange.

(** ** Theorems about [update] *)

Ltac cases_eqb :=
  repeat match goal with
  | |- context [?x =? ?y] => destruct (Z.eqb_spec x y); simpl
  end.

(** C5. Exact update rule: on a state of the hexagon and an update with
    [1 <= k <= c], [1 <= j <= a + b - 1], [update] returns normally; with
    [dy = 1] it raises [s[k][j]] by exactly 1 if and only if
    [s[k][j-1] == s[k][j] < s[k][j+1] < s[k+1][j]], and with [dy = 0] it
    lowers [s[k][j]] by exactly 1 if and only if
    [s[k-1][j] < s[k][j-1] < s[k][j] == s[k][j+1]]. *)
Theorem update_exact_rule (a b c : Z) (s : state) (k j : Z) :
  shape_ok a b c s = true -> 1 <= k <= c -> 1 <= j <= a + b - 1 ->
  (fst (update (k, j, 1) s) = Ok tt /\
   (hgt (updated s (k, j, 1)) k j = hgt s k j + 1 <->
    hgt s k (j - 1) = hgt s k j /\ hgt s k j < hgt s k (j + 1)
    /\ hgt s k (j + 1) < hgt s (k + 1) j)) /\
  (fst (update (k, j, 0) s) = Ok tt /\
   (hgt (updated s (k, j, 0)) k j = hgt s k j - 1 <->
    hgt s (k - 1) j < hgt s k (j - 1) /\ hgt s k (j - 1) < hgt s k j
    /\ hgt s k j = hgt s k (j + 1))).
Proof.
  intros Hs Hk Hj.
  rewrite !(update_in_range a b c s k j Hs Hk Hj).
  rewrite !(updated_hgt a b c s k j Hs Hk Hj) by lia.
  rewrite !Z.eqb_refl. simpl.
  pose proof (delta_spec a b c s k j Hs Hk Hj 1) as H1.
  pose proof (delta_spec a b c s k j Hs Hk Hj 0) as H0.
  simpl in H1, H0. repeat split; lia.
Qed.

Lemma update_exact_rule_witness :
  let s := [[0; 0; 1]; [1; 1; 2]; [2; 3; 3]] in
  (fst (update (1, 1, 1) s) = Ok tt /\
   (hgt (updated s (1, 1, 1)) 1 1 = hgt s 1 1 + 1 <->
    hgt s 1 (1 - 1) = hgt s 1 1 /\ hgt s 1 1 < hgt s 1 (1 + 1)
    /\ hgt s 1 (1 + 1) < hgt s (1 + 1) 1)) /\
  (fst (update (1, 1, 0) s) = Ok tt /\
   (hgt (updated s (1, 1, 0)) 1 1 = hgt s 1 1 - 1 <->
    hgt s (1 - 1) 1 < hgt s 1 (1 - 1) /\ hgt s 1 (1 - 1) < hgt s 1 1
    /\ hgt s 1 1 = hgt s 1 (1 + 1))).
Proof.
  intros s. apply (update_exact_rule 1 1 1 s 1 1); [reflexivity|lia|lia].
Defined.

(** C7. Illegal updates are no-ops: for every state and every update
    operation, if the legality condition of the requested push fails,
    [update] leaves the state entirely unchanged. *)
Theorem illegal_update_noop (s : state) (u : upd) :
  legal s u = false -> updated s u = s.
Proof.
  destruct u as [[k j] dy]. unfold legal, updated, update, St.bind.
  destruct (dy =? 1); intros Hl.
  - pose proof (push_up_cond_state k j s) as Hst.
    pose proof (push_up_cond_true k j s) as Htr.
    destruct (push_up_cond k j s) as [[[|]|e] s']; simpl in *; subst s';
      try reflexivity.
    rewrite (proj1 Htr eq_refl) in Hl. discriminate.
  - pose proof (push_down_cond_state k j s) as Hst.
    pose proof (push_down_cond_true k j s) as Htr.
    destruct (push_down_cond k j s) as [[[|]|e] s']; simpl in *; subst s';
      try reflexivity.
    rewrite (proj1 Htr eq_refl) in Hl. discriminate.
Qed.

Lemma illegal_update_noop_witness :
  updated [[0; 0; 1]; [1; 2; 2]; [2; 3; 3]] (1, 1, 1) =
  [[0; 0; 1]; [1; 2; 2]; [2; 3; 3]].
Proof.
  apply (illegal_update_noop [[0; 0; 1]; [1; 2; 2]; [2; 3; 3]] (1, 1, 1)).
  reflexivity.
Defined.

(** C10. Frame property: on a state of the hexagon and an update with
    [1 <= k <= c], [1 <= j <= a + b - 1], [update] returns normally, keeps
    the shape, changes entry [(k, j)] by at most 1 and leaves every other
    entry as it was, the boundary paths [0] and [c + 1] among them. *)
Theorem update_frame (a b c : Z) (s : state) (k j dy : Z) :
  shape_ok a b c s = true -> 1 <= k <= c -> 1 <= j <= a + b - 1 ->
  fst (update (k, j, dy) s) = Ok tt /\
  shape_ok a b c (updated s (k, j, dy)) = true /\
  (forall k' j', 0 <= k' <= c + 1 -> 0 <= j' <= a + b ->
     (k', j') <> (k, j) ->
     St.item2 (updated s (k, j, dy)) k' j' = St.item2 s k' j') /\
  (exists h h', St.item2 s k j = Ok h /\
     St.item2 (updated s (k, j, dy)) k j = Ok h' /\ -1 <= h' - h <= 1) /\
  (forall j', 0 <= j' <= a + b ->
     St.item2 (updated s (k, j, dy)) 0 j' = St.item2 s 0 j' /\
     St.item2 (updated s (k, j, dy)) (c + 1) j' = St.item2 s (c + 1) j').
Proof.
  intros Hs Hk Hj.
  pose proof (updated_shape a b c s k j Hs Hk Hj dy) as Hs'.
  assert (Hother : forall k' j', 0 <= k' <= c + 1 -> 0 <= j' <= a + b ->
            (k', j') <> (k, j) ->
            St.item2 (updated s (k, j, dy)) k' j' = St.item2 s k' j').
  { intros k' j' Hk' Hj' Hne.
    rewrite !(shape_item2 a b c) by assumption.
    rewrite (updated_hgt a b c s k j Hs Hk Hj) by assumption.
    cases_eqb; congruence. }
  split; [now rewrite (update_in_range a b c s k j Hs Hk Hj)|].
  split; [assumption|]. split; [assumption|]. split.
  - exists (hgt s k j), (hgt (updated s (k, j, dy)) k j).
    rewrite !(shape_item2 a b c) by (assumption || lia).
    split; [reflexivity|]. split; [reflexivity|].
    rewrite (updated_hgt a b c s k j Hs Hk Hj) by lia.
    rewrite !Z.eqb_refl. simpl.
    pose proof (delta_spec a b c s k j Hs Hk Hj dy) as Hd. simpl in Hd. lia.
  - intros j' Hj'. split; apply Hother; try lia; intros [= ? ?]; lia.
Qed.

Lemma update_frame_witness :
  let s := [[0; 0; 1]; [1; 1; 2]; [2; 3; 3]] in
  fst (update (1, 1, 1) s) = Ok tt /\
  shape_ok 1 1 1 (updated s (1, 1, 1)) = true /\
  (forall k' j', 0 <= k' <= 1 + 1 -> 0 <= j' <= 1 + 1 ->
     (k', j') <> (1, 1) ->
     St.item2 (updated s (1, 1, 1)) k' j' = St.item2 s k' j') /\
  (exists h h', St.item2 s 1 1 = Ok h /\
     St.item2 (updated s (1, 1, 1)) 1 1 = Ok h' /\ -1 <= h' - h <= 1) /\
  (forall j', 0 <= j' <= 1 + 1 ->
     St.item2 (updated s (1, 1, 1)) 0 j' = St.item2 s 0 j' /\
     St.item2 (updated s (1, 1, 1)) (1 + 1) j' = St.item2 s (1 + 1) j').
Proof.
  intros s. apply (update_frame 1 1 1 s 1 1 1); [reflexivity|lia|lia].
Defined.

(** The invariants around the updated entry, ready for arithmetic. *)
Lemma invariants_at (a b c : Z) (s : state) (k j : Z) :
  invariants a b c s = true -> 1 <= k <= c -> 1 <= j <= a + b - 1 ->
  (hgt s k (j - 1) <= hgt s k j <= hgt s k (j - 1) + 1) /\
  (hgt s k j <= hgt s k (j + 1) <= hgt s k j + 1) /\
  hgt s (k - 1) j <= hgt s k j /\
  hgt s k j <= hgt s (k + 1) j.
Proof.
  intros Hinv Hk Hj.
  pose proof (invariants_shape _ _ _ _ Hinv) as Hs.
  apply (invariants_spec a b c s Hs) in Hinv as [Hpm Hnc].
  pose proof (Hpm k (j - 1) ltac:(lia) ltac:(lia)) as P1.
  pose proof (Hpm k j ltac:(lia) ltac:(lia)) as P2.
  pose proof (Hnc (k - 1) j ltac:(lia) ltac:(lia)) as N1.
  pose proof (Hnc k j ltac:(lia) ltac:(lia)) as N2.
  replace (j - 1 + 1) with j in P1 by lia.
  replace (k - 1 + 1) with k in N1 by lia.
  lia.
Qed.

(** C2. Invariant preservation: on a state that satisfies the invariants
    and an update with [1 <= k <= c], [1 <= j <= a + b - 1], [update]
    returns normally and the state it leaves satisfies the invariants. *)
Theorem update_preserves_invariants (a b c : Z) (s : state) (k j dy : Z) :
  invariants a b c s = true -> 1 <= k <= c -> 1 <= j <= a + b - 1 ->
  fst (update (k, j, dy) s) = Ok tt /\
  invariants a b c (updated s (k, j, dy)) = true.
Proof.
  intros Hinv Hk Hj.
  pose proof (invariants_shape _ _ _ _ Hinv) as Hs.
  split; [now rewrite (update_in_range a b c s k j Hs Hk Hj)|].
  pose proof (updated_shape a b c s k j Hs Hk Hj dy) as Hs'.
  pose proof (invariants_at a b c s k j Hinv Hk Hj) as (P1 & P2 & N1 & N2).
  pose proof (delta_spec a b c s k j Hs Hk Hj dy) as Hd. simpl in Hd.
  apply (invariants_spec a b c s Hs) in Hinv as [Hpm Hnc].
  apply (invariants_spec a b c _ Hs'). split.
  - intros k' j' Hk' Hj'.
    rewrite !(updated_hgt a b c s k j Hs Hk Hj) by lia.
    pose proof (Hpm k' j' Hk' Hj') as G.
    destruct (Z.eqb_spec k' k) as [->|?]; simpl; [|lia].
    destruct (Z.eqb_spec j' j) as [E|?];
      destruct (Z.eqb_spec (j' + 1) j) as [E'|?]; simpl; try lia.
    + subst j'. lia.
    + assert (j' = j - 1) as -> by lia. lia.
  - intros k' j' Hk' Hj'.
    rewrite !(updated_hgt a b c s k j Hs Hk Hj) by lia.
    pose proof (Hnc k' j' Hk' Hj') as G.
    destruct (Z.eqb_spec j' j) as [->|?]; rewrite ?andb_false_r; [|lia].
    rewrite !andb_true_r.
    destruct (Z.eqb_spec k' k) as [E|?];
      destruct (Z.eqb_spec (k' + 1) k) as [E'|?]; simpl; try lia.
    + subst k'. lia.
    + assert (k' = k - 1) as -> by lia. lia.
Qed.

Lemma update_preserves_invariants_witness :
  let s := [[0; 0; 1]; [1; 1; 2]; [2; 3; 3]] in
  fst (update (1, 1, 1) s) = Ok tt /\
  invariants 1 1 1 (updated s (1, 1, 1)) = true.
Proof.
  intros s.
  apply (update_preserves_invariants 1 1 1 s 1 1 1); [reflexivity|lia|lia].
Defined.

(** C1. Monotonicity of the update rule: for two states that satisfy the
    invariants and are ordered pointwise, and an update with
    [1 <= k <= c], [1 <= j <= a + b - 1], applying the same update to both
    (it returns normally on both) leaves them ordered pointwise. *)
Theorem update_monotone (a b c : Z) (s s' : state) (k j dy : Z) :
  invariants a b c s = true -> invariants a b c s' = true ->
  state_le a b c s s' = true ->
  1 <= k <= c -> 1 <= j <= a + b - 1 ->
  fst (update (k, j, dy) s) = Ok tt /\
  fst (update (k, j, dy) s') = Ok tt /\
  state_le a b c (updated s (k, j, dy)) (updated s' (k, j, dy)) = true.
Proof.
  intros Hinv Hinv' Hle Hk Hj.
  pose proof (invariants_shape _ _ _ _ Hinv) as Hs.
  pose proof (invariants_shape _ _ _ _ Hinv') as Hs'.
  split; [now rewrite (update_in_range a b c s k j Hs Hk Hj)|].
  split; [now rewrite (update_in_range a b c s' k j Hs' Hk Hj)|].
  pose proof (updated_shape a b c s k j Hs Hk Hj dy) as Ht.
  pose proof (updated_shape a b c s' k j Hs' Hk Hj dy) as Ht'.
  pose proof (invariants_at a b c s k j Hinv Hk Hj) as (P1 & P2 & N1 & N2).
  pose proof (invariants_at a b c s' k j Hinv' Hk Hj) as (P1' & P2' & N1' & N2').
  pose proof (delta_spec a b c s k j Hs Hk Hj dy) as Hd. cbv zeta in Hd.
  pose proof (delta_spec a b c s' k j Hs' Hk Hj dy) as Hd'. cbv zeta in Hd'.
  pose proof (proj1 (state_le_spec a b c s Hs s' Hs') Hle) as Hle'.
  clear Hle. rename Hle' into Hle.
  apply (state_le_spec a b c _ Ht _ Ht').
  intros k' j' Hk' Hj'.
  rewrite (updated_hgt a b c s k j Hs Hk Hj) by lia.
  rewrite (updated_hgt a b c s' k j Hs' Hk Hj) by lia.
  destruct ((k' =? k) && (j' =? j)); [|now apply Hle].
  pose proof (Hle k (j - 1) ltac:(lia) ltac:(lia)).
  pose proof (Hle k j ltac:(lia) ltac:(lia)).
  pose proof (Hle k (j + 1) ltac:(lia) ltac:(lia)).
  pose proof (Hle (k - 1) j ltac:(lia) ltac:(lia)).
  pose proof (Hle (k + 1) j ltac:(lia) ltac:(lia)).
  lia.
Qed.

Lemma update_monotone_witness :
  let s := [[0; 0; 1]; [1; 1; 2]; [2; 3; 3]] in
  let s' := [[0; 0; 1]; [1; 2; 2]; [2; 3; 3]] in
  fst (update (1, 1, 0) s) = Ok tt /\
  fst (update (1, 1, 0) s') = Ok tt /\
  state_le 1 1 1 (updated s (1, 1, 0)) (updated s' (1, 1, 0)) = true.
Proof.
  intros s s'.
  apply (update_monotone 1 1 1 s s' 1 1 0);
    [reflexivity|reflexivity|reflexivity|lia|lia].
Defined.

(** ** The extremal states *)

Section Grid.
Variable f : Z -> Z -> Z.
Variables n m : Z.

(** The nested comprehension
    [[[f k j for j in range(m)] for k in range(n)]]. *)
Local Abbreviation grid :=
  (map (fun k => map (fun j => f k j) (range m)) (range n)).

Lemma lookup_map_range {A} (g : Z -> A) (len i : Z) :
  0 <= i < len -> map g (range len) !! Z.to_nat i = Some (g i).
Proof.
  intros Hi. change (map g (range len)) with (g <$> range len).
  rewrite list_lookup_fmap. unfold range.
  rewrite lookup_seqZ_lt by lia. simpl. f_equal. f_equal. lia.
Qed.

Lemma length_map_range {A} (g : Z -> A) (len : Z) :
  length (map g (range len)) = Z.to_nat len.
Proof.
  unfold range. now rewrite length_map, length_seqZ.
Qed.

Lemma item2_grid (k j : Z) :
  0 <= k < n -> 0 <= j < m ->
  St.item2 grid k j = Ok (f k j) /\ hgt grid k j = f k j.
Proof.
  intros Hk Hj.
  apply (hgt_lookup grid k j (map (fun j => f k j) (range m))); try lia.
  - now rewrite lookup_map_range.
  - now rewrite lookup_map_range.
Qed.

Lemma shape_grid (a b c : Z) :
  n = c + 2 -> m = a + b + 1 -> 0 <= n -> 0 <= m ->
  shape_ok a b c grid = true.
Proof.
  intros Hn Hm Hn0 Hm0. apply shape_ok_spec. split.
  - rewrite length_map_range. lia.
  - intros row Hrow.
    apply in_map_iff in Hrow as (k & <- & _).
    rewrite length_map_range. lia.
Qed.
End Grid.

(** C6. Closed forms of the extremal states: for [0 <= j <= a + b], the
    first state returned by [min_max_states] has [max(j - a, 0)] on path
    0 and [k + min(j, b)] on the paths [k = 1..c]; the second has
    [c + 1 + min(j, b)] on path [c + 1] and [k + max(j - a, 0)] on the
    other paths. *)
Theorem min_max_closed_forms (a b c j : Z) :
  0 <= c -> 0 <= j <= a + b ->
  let s0 := fst (min_max_states (mkLozengeTiling (a, b, c))) in
  let s1 := snd (min_max_states (mkLozengeTiling (a, b, c))) in
  St.item2 s0 0 j = Ok (Z.max (j - a) 0) /\
  (forall k, 1 <= k <= c -> St.item2 s0 k j = Ok (k + Z.min j b)) /\
  St.item2 s1 (c + 1) j = Ok (c + 1 + Z.min j b) /\
  (forall k, 0 <= k <= c -> St.item2 s1 k j = Ok (k + Z.max (j - a) 0)).
Proof.
  intros Hc Hj. simpl. repeat split.
  - now rewrite (proj1 (item2_grid _ (c + 2) (a + b + 1) 0 j
                          ltac:(lia) ltac:(lia))).
  - intros k Hk.
    rewrite (proj1 (item2_grid _ (c + 2) (a + b + 1) k j
                      ltac:(lia) ltac:(lia))).
    destruct (Z.eqb_spec k 0); [lia|reflexivity].
  - rewrite (proj1 (item2_grid _ (c + 2) (a + b + 1) (c + 1) j
                      ltac:(lia) ltac:(lia))).
    now rewrite Z.eqb_refl.
  - intros k Hk.
    rewrite (proj1 (item2_grid _ (c + 2) (a + b + 1) k j
                      ltac:(lia) ltac:(lia))).
    destruct (Z.eqb_spec k (c + 1)); [lia|reflexivity].
Qed.

Lemma min_max_closed_forms_witness :
  let s0 := fst (min_max_states (mkLozengeTiling (2, 1, 1))) in
  let s1 := snd (min_max_states (mkLozengeTiling (2, 1, 1))) in
  St.item2 s0 0 3 = Ok (Z.max (3 - 2) 0) /\
  (forall k, 1 <= k <= 1 -> St.item2 s0 k 3 = Ok (k + Z.min 3 1)) /\
  St.item2 s1 (1 + 1) 3 = Ok (1 + 1 + Z.min 3 1) /\
  (forall k, 0 <= k <= 1 -> St.item2 s1 k 3 = Ok (k + Z.max (3 - 2) 0)).
Proof.
  apply (min_max_closed_forms 2 1 1 3); lia.
Defined.

(** The two states of [min_max_states] on a hexagon with non-negative
    sides: shape, invariants and heights. *)
Lemma min_max_facts (a b c : Z) :
  0 <= a -> 0 <= b -> 0 <= c ->
  let s0 := fst (min_max_states (mkLozengeTiling (a, b, c))) in
  let s1 := snd (min_max_states (mkLozengeTiling (a, b, c))) in
  shape_ok a b c s0 = true /\ shape_ok a b c s1 = true /\
  (forall k j, 0 <= k <= c + 1 -> 0 <= j <= a + b ->
     hgt s0 k j = (if k =? 0 then Z.max (j - a) 0 else k + Z.min j b)) /\
  (forall k j, 0 <= k <= c + 1 -> 0 <= j <= a + b ->
     hgt s1 k j = (if k =? c + 1 then c + 1 + Z.min j b
                   else k + Z.max (j - a) 0)).
Proof.
  intros Ha Hb Hc. simpl. repeat split.
  - apply shape_grid; lia.
  - apply shape_grid; lia.
  - intros k j Hk Hj.
    apply (item2_grid
             (fun k j => if k =? 0 then Z.max (j - a) 0 else k + Z.min j b));
      lia.
  - intros k j Hk Hj.
    apply (item2_grid
             (fun k j => if k =? c + 1 then c + 1 + Z.min j b
                         else k + Z.max (j - a) 0)); lia.
Qed.

(** C3, as the code has it. For positive side lengths, the pair
    [(s0, s1)] returned by [min_max_states] is ordered pointwise the
    other way round: [s1[k][j] <= s0[k][j]] for every [k] in
    [0, c + 1] and [j] in [0, a + b], while [s0 <= s1] fails; both
    states satisfy the invariants. *)
Theorem min_max_states_ordered (a b c : Z) :
  1 <= a -> 1 <= b -> 1 <= c ->
  let s0 := fst (min_max_states (mkLozengeTiling (a, b, c))) in
  let s1 := snd (min_max_states (mkLozengeTiling (a, b, c))) in
  state_le a b c s1 s0 = true /\
  state_le a b c s0 s1 = false /\
  invariants a b c s0 = true /\
  invariants a b c s1 = true.
Proof.
  intros Ha Hb Hc s0 s1.
  destruct (min_max_facts a b c ltac:(lia) ltac:(lia) ltac:(lia))
    as (Hs0 & Hs1 & H0 & H1).
  fold s0 s1 in Hs0, Hs1, H0, H1.
  split; [|split; [|split]].
  - apply (state_le_spec a b c s1 Hs1 s0 Hs0). intros k j Hk Hj.
    rewrite H0, H1 by lia.
    destruct (Z.eqb_spec k 0); destruct (Z.eqb_spec k (c + 1)); lia.
  - apply not_true_is_false. intros Hle.
    pose proof (proj1 (state_le_spec a b c s0 Hs0 s1 Hs1) Hle 1 1
                  ltac:(lia) ltac:(lia)) as H.
    rewrite H0, H1 in H by lia.
    destruct (Z.eqb_spec 1 (c + 1)); simpl in H; lia.
  - apply (invariants_spec a b c s0 Hs0). split; intros k j Hk Hj.
    + rewrite !H0 by lia. destruct (Z.eqb_spec k 0); lia.
    + rewrite !H0 by lia.
      destruct (Z.eqb_spec k 0); destruct (Z.eqb_spec (k + 1) 0); lia.
  - apply (invariants_spec a b c s1 Hs1). split; intros k j Hk Hj.
    + rewrite !H1 by lia. destruct (Z.eqb_spec k (c + 1)); lia.
    + rewrite !H1 by lia.
      destruct (Z.eqb_spec k (c + 1));
        destruct (Z.eqb_spec (k + 1) (c + 1)); lia.
Qed.

Lemma min_max_states_ordered_witness :
  let s0 := fst (min_max_states (mkLozengeTiling (2, 1, 1))) in
  let s1 := snd (min_max_states (mkLozengeTiling (2, 1, 1))) in
  state_le 2 1 1 s1 s0 = true /\
  state_le 2 1 1 s0 s1 = false /\
  invariants 2 1 1 s0 = true /\
  invariants 2 1 1 s1 = true.
Proof.
  apply (min_max_states_ordered 2 1 1); lia.
Defined.

(** On the (1 x 1 x 1) hexagon the first state is not below the second:
    at [(1, 1)] it has height 2 against 1. *)
Lemma min_max_states_not_s0_le_s1 :
  let s0 := fst (min_max_states (mkLozengeTiling (1, 1, 1))) in
  let s1 := snd (min_max_states (mkLozengeTiling (1, 1, 1))) in
  St.item2 s0 1 1 = Ok 2 /\ St.item2 s1 1 1 = Ok 1 /\
  state_le 1 1 1 s0 s1 = false.
Proof. repeat split. Qed.

(** C9, as the code has it. The constructor checks nothing: for every
    triple of integers, non-positive side lengths included, it returns
    an object holding that triple, and [min_max_states] on it still
    returns two states of [max(c + 2, 0)] rows. *)
Theorem init_accepts_any_size (a b c : Z) :
  exists self,
    __init__ (a, b, c) = Ok self /\ size self = (a, b, c) /\
    length (fst (min_max_states self)) = Z.to_nat (c + 2) /\
    length (snd (min_max_states self)) = Z.to_nat (c + 2).
Proof.
  exists (mkLozengeTiling (a, b, c)). simpl.
  now rewrite !length_map_range.
Qed.

(** A hexagon with side lengths (0, 0, 0) is constructed without error
    and yields states. *)
Lemma init_nonpositive_not_rejected :
  __init__ (0, 0, 0) = Ok (mkLozengeTiling (0, 0, 0)) /\
  min_max_states (mkLozengeTiling (0, 0, 0)) = ([[0]; [1]], [[0]; [1]]).
Proof. split; reflexivity. Qed.

Lemma tile_cell_in_range (a b c : Z) (s : state) (k j : Z) (v : tiles) :
  shape_ok a b c s = true -> 0 <= k <= c -> 1 <= j <= a + b ->
  tile_cell s k j v =
  Ok (add_tiles v (cell_L s k j) (cell_R s k j) (cell_T s k j)).
Proof.
  intros Hs Hk Hj. unfold tile_cell, cell_L, cell_R, cell_T, add_tiles.
  rewrite !(shape_item2 a b c s) by (assumption || lia).
  destruct v as [l r t]. simpl.
  destruct (0 <? k); simpl.
  - destruct (hgt s k j =? hgt s k (j - 1)); simpl;
      now rewrite ?app_nil_r.
  - now rewrite !app_nil_r.
Qed.

(** A loop whose body appends to the three keys appends the
    concatenation of what each iteration contributes. *)
Lemma for_each_add_tiles {A} (body : tiles -> A -> result tiles)
      (gl gr gt : A -> list polygon) (xs : list A) :
  (forall x v, In x xs ->
     body v x = Ok (add_tiles v (gl x) (gr x) (gt x))) ->
  forall v, for_each body xs v =
            Ok (add_tiles v (flat_map gl xs) (flat_map gr xs)
                          (flat_map gt xs)).
Proof.
  induction xs as [|x xs IH]; intros Hbody v.
  - destruct v. unfold add_tiles. simpl. now rewrite !app_nil_r.
  - simpl. rewrite Hbody by now left. simpl.
    rewrite IH by (intros; apply Hbody; now right).
    unfold add_tiles. simpl. now rewrite <- !app_assoc.
Qed.

Lemma get_tiles_flat_map (a b c : Z) (s : state) :
  shape_ok a b c s = true ->
  let js := range2 1 (a + b + 1) in
  let ks := range (c + 1) in
  get_tiles (mkLozengeTiling (a, b, c)) s =
  Ok (mkTiles (flat_map (fun k => flat_map (cell_L s k) js) ks)
              (flat_map (fun k => flat_map (cell_R s k) js) ks)
              (flat_map (fun k => flat_map (cell_T s k) js) ks)).
Proof.
  intros Hs js ks. unfold get_tiles. simpl. fold js ks.
  rewrite (for_each_add_tiles _
             (fun k => flat_map (cell_L s k) js)
             (fun k => flat_map (cell_R s k) js)
             (fun k => flat_map (cell_T s k) js)).
  - reflexivity.
  - intros k v Hk%range_In.
    apply for_each_add_tiles. intros j v' Hj%range2_In.
    apply (tile_cell_in_range a b c); (assumption || lia).
Qed.

Lemma cell_LR_length (s : state) (k : Z) (js : list Z) :
  (length (flat_map (cell_L s k) js) + length (flat_map (cell_R s k) js))%nat
  = if 0 <? k then length js else 0%nat.
Proof.
  induction js as [|j js IH]; simpl.
  - now destruct (0 <? k).
  - rewrite !length_app. unfold cell_L at 1, cell_R at 1.
    destruct (0 <? k); simpl in *;
      [destruct (hgt s k j =? hgt s k (j - 1)); simpl|]; lia.
Qed.

Lemma rows_LR_length (s : state) (js ks : list Z) :
  Forall (fun k => 0 < k) ks ->
  (length (flat_map (fun k => flat_map (cell_L s k) js) ks)
   + length (flat_map (fun k => flat_map (cell_R s k) js) ks))%nat
  = (length ks * length js)%nat.
Proof.
  induction 1 as [|k ks Hk _ IH]; simpl; [reflexivity|].
  rewrite !length_app.
  pose proof (cell_LR_length s k js) as H.
  destruct (Z.ltb_spec 0 k); lia.
Qed.

Lemma cell_T_length (s : state) (k j : Z) :
  Z.of_nat (length (cell_T s k j))
  = Z.max 0 (hgt s (k + 1) j - hgt s k j - 1).
Proof.
  unfold cell_T. rewrite length_map, length_range2. lia.
Qed.

Lemma sumZ_cons (x : Z) (l : list Z) : sumZ (x :: l) = x + sumZ l.
Proof. reflexivity. Qed.

Lemma row_T_length (s : state) (k : Z) (js : list Z) :
  Z.of_nat (length (flat_map (cell_T s k) js))
  = sumZ (map (fun j => Z.max 0 (hgt s (k + 1) j - hgt s k j - 1)) js).
Proof.
  induction js as [|j js IH]; [reflexivity|].
  cbn [flat_map map].
  rewrite length_app, Nat2Z.inj_add, IH, cell_T_length, sumZ_cons.
  reflexivity.
Qed.

Lemma rows_T_length (s : state) (js ks : list Z) :
  Z.of_nat (length (flat_map (fun k => flat_map (cell_T s k) js) ks))
  = sumZ (map (fun k =>
       sumZ (map (fun j => Z.max 0 (hgt s (k + 1) j - hgt s k j - 1)) js))
       ks).
Proof.
  induction ks as [|k ks IH]; [reflexivity|].
  cbn [flat_map map].
  rewrite length_app, Nat2Z.inj_add, IH, row_T_length, sumZ_cons.
  reflexivity.
Qed.

(** C8, as the code has it. On a state of the hexagon [get_tiles] returns
    normally.  It visits the pairs [k] in [0..c], [j] in [1..a+b]: for
    [k >= 1] it appends one left lozenge when [s[k][j] == s[k][j-1]] and
    one right lozenge otherwise, so that left and right lozenges together
    number [c * (a + b)]; and for every [k] in [0..c] it appends one top
    lozenge for each level strictly between [s[k][j]] and [s[k+1][j]]:
    the list of top lozenges is exactly these, pair by pair in the order
    of the loops and level by level upwards, [s[k+1][j] - s[k][j] - 1]
    of them for a pair where this is positive and none otherwise. *)
Theorem get_tiles_characterised (a b c : Z) (s : state) :
  shape_ok a b c s = true -> 0 <= c -> 0 <= a + b ->
  exists verts,
    get_tiles (mkLozengeTiling (a, b, c)) s = Ok verts /\
    (forall p, In p (verts_L verts) <->
       exists k j, 1 <= k <= c /\ 1 <= j <= a + b /\
         hgt s k j = hgt s k (j - 1) /\
         p = lozenge L_OFFSETS j (hgt s k j)) /\
    (forall p, In p (verts_R verts) <->
       exists k j, 1 <= k <= c /\ 1 <= j <= a + b /\
         hgt s k j <> hgt s k (j - 1) /\
         p = lozenge R_OFFSETS j (hgt s k j)) /\
    (forall p, In p (verts_T verts) <->
       exists k j l, 0 <= k <= c /\ 1 <= j <= a + b /\
         hgt s k j < l < hgt s (k + 1) j /\
         p = lozenge T_OFFSETS j l) /\
    verts_T verts =
      flat_map (fun k =>
        flat_map (fun j =>
          map (fun l => lozenge T_OFFSETS j l)
              (range2 (hgt s k j + 1) (hgt s (k + 1) j)))
          (range2 1 (a + b + 1)))
        (range (c + 1)) /\
    Z.of_nat (length (verts_T verts)) =
      sumZ (map (fun k =>
        sumZ (map (fun j => Z.max 0 (hgt s (k + 1) j - hgt s k j - 1))
                  (range2 1 (a + b + 1))))
        (range (c + 1))) /\
    Z.of_nat (length (verts_L verts) + length (verts_R verts))
    = c * (a + b).
Proof.
  intros Hs Hc Hab. eexists. split; [apply (get_tiles_flat_map a b c s Hs)|].
  cbn [verts_L verts_R verts_T].
  split; [split|split; [split|split; [split|split; [reflexivity|split]]]].
  - intros (k & Hk%range_In & (j & Hj%range2_In & Hp)%in_flat_map)%in_flat_map.
    unfold cell_L in Hp.
    destruct (Z.ltb_spec 0 k); simpl in Hp; [|contradiction].
    destruct (Z.eqb_spec (hgt s k j) (hgt s k (j - 1))); simpl in Hp;
      [|contradiction].
    destruct Hp as [<-|[]]. exists k, j. repeat split; (assumption || lia).
  - intros (k & j & Hk & Hj & Heq & ->).
    apply in_flat_map. exists k. split; [apply range_In; lia|].
    apply in_flat_map. exists j. split; [apply range2_In; lia|].
    unfold cell_L.
    destruct (Z.ltb_spec 0 k); [|lia].
    destruct (Z.eqb_spec (hgt s k j) (hgt s k (j - 1))); [|lia].
    now left.
  - intros (k & Hk%range_In & (j & Hj%range2_In & Hp)%in_flat_map)%in_flat_map.
    unfold cell_R in Hp.
    destruct (Z.ltb_spec 0 k); simpl in Hp; [|contradiction].
    destruct (Z.eqb_spec (hgt s k j) (hgt s k (j - 1))); simpl in Hp;
      [contradiction|].
    destruct Hp as [<-|[]]. exists k, j. repeat split; (assumption || lia).
  - intros (k & j & Hk & Hj & Hne & ->).
    apply in_flat_map. exists k. split; [apply range_In; lia|].
    apply in_flat_map. exists j. split; [apply range2_In; lia|].
    unfold cell_R.
    destruct (Z.ltb_spec 0 k); [|lia].
    destruct (Z.eqb_spec (hgt s k j) (hgt s k (j - 1))); [lia|].
    now left.
  - intros (k & Hk%range_In & (j & Hj%range2_In & Hp)%in_flat_map)%in_flat_map.
    unfold cell_T in Hp. apply in_map_iff in Hp as (l & <- & Hl%range2_In).
    exists k, j, l. repeat split; lia.
  - intros (k & j & l & Hk & Hj & Hl & ->).
    apply in_flat_map. exists k. split; [apply range_In; lia|].
    apply in_flat_map. exists j. split; [apply range2_In; lia|].
    unfold cell_T. apply in_map_iff. exists l.
    split; [reflexivity|apply range2_In; lia].
  - apply rows_T_length.
  - assert (Hks : range (c + 1) = 0 :: range2 1 (c + 1)).
    { unfold range, range2. rewrite seqZ_cons by lia. now f_equal. }
    rewrite Hks. cbn [flat_map]. rewrite !length_app.
    pose proof (cell_LR_length s 0 (range2 1 (a + b + 1))) as H0.
    change (0 <? 0) with false in H0. cbv iota in H0.
    assert (H1 : Forall (fun k => 0 < k) (range2 1 (c + 1))).
    { apply List.Forall_forall. intros k Hk%range2_In. lia. }
    apply (rows_LR_length s (range2 1 (a + b + 1))) in H1.
    rewrite !length_range2 in H1.
    replace (c + 1 - 1) with c in H1 by lia.
    replace (a + b + 1 - 1) with (a + b) in H1 by lia.
    transitivity (Z.of_nat (Z.to_nat c * Z.to_nat (a + b))).
    + f_equal. rewrite <- H1. lia.
    + rewrite Nat2Z.inj_mul, !Z2Nat.id by lia. reflexivity.
Qed.

Lemma get_tiles_characterised_witness :
  let s := [[0; 0; 1]; [1; 1; 2]; [2; 3; 3]] in
  exists verts,
    get_tiles (mkLozengeTiling (1, 1, 1)) s = Ok verts /\
    (forall p, In p (verts_L verts) <->
       exists k j, 1 <= k <= 1 /\ 1 <= j <= 1 + 1 /\
         hgt s k j = hgt s k (j - 1) /\
         p = lozenge L_OFFSETS j (hgt s k j)) /\
    (forall p, In p (verts_R verts) <->
       exists k j, 1 <= k <= 1 /\ 1 <= j <= 1 + 1 /\
         hgt s k j <> hgt s k (j - 1) /\
         p = lozenge R_OFFSETS j (hgt s k j)) /\
    (forall p, In p (verts_T verts) <->
       exists k j l, 0 <= k <= 1 /\ 1 <= j <= 1 + 1 /\
         hgt s k j < l < hgt s (k + 1) j /\
         p = lozenge T_OFFSETS j l) /\
    verts_T verts =
      flat_map (fun k =>
        flat_map (fun j =>
          map (fun l => lozenge T_OFFSETS j l)
              (range2 (hgt s k j + 1) (hgt s (k + 1) j)))
          (range2 1 (1 + 1 + 1)))
        (range (1 + 1)) /\
    Z.of_nat (length (verts_T verts)) =
      sumZ (map (fun k =>
        sumZ (map (fun j => Z.max 0 (hgt s (k + 1) j - hgt s k j - 1))
                  (range2 1 (1 + 1 + 1))))
        (range (1 + 1))) /\
    Z.of_nat (length (verts_L verts) + length (verts_R verts))
    = 1 * (1 + 1).
Proof.
  intros s. apply (get_tiles_characterised 1 1 1 s); [reflexivity|lia|lia].
Defined.

(** On the (1 x 1 x 1) hexagon and its first extremal state, [get_tiles]
    classifies only the pairs of path 1: it emits two left or right
    lozenges, not the [(c + 1) * (a + b) = 4] of the pairs [k] in
    [1..c+1]; the pair [(k, j) = (2, 1)], whose heights [s[2][1] = 3] and
    [s[2][0] = 2] differ, gets no right lozenge; and the one top lozenge
    comes from the gap between paths 0 and 1, a pair with [k = 0]. *)
Lemma get_tiles_pairs_counterexample :
  let s := [[0; 0; 1]; [1; 2; 2]; [2; 3; 3]] in
  exists verts,
    get_tiles (mkLozengeTiling (1, 1, 1)) s = Ok verts /\
    (length (verts_L verts) + length (verts_R verts))%nat = 2%nat /\
    St.item2 s 2 1 = Ok 3 /\ St.item2 s 2 0 = Ok 2 /\
    ~ In (lozenge R_OFFSETS 1 3) (verts_R verts) /\
    ~ In (lozenge L_OFFSETS 1 3) (verts_L verts) /\
    verts_T verts = [lozenge T_OFFSETS 1 1] /\
    St.item2 s 0 1 = Ok 0 /\ St.item2 s 1 1 = Ok 2.
Proof.
  intros s. eexists. split; [reflexivity|]. simpl.
  repeat split; try reflexivity.
  - intros [H|[]]. discriminate H.
  - intros [H|[]]. discriminate H.
Qed.

Section CFTPFacts.
Context {G S U : Type} (mc : MarkovChain G S U).

Lemma cftp_round_lookback (updates updates' : list (option G * Z))
      (g g' : G) (rng_next : option G) :
  cftp_round mc updates g = Ok (LookBack updates', rng_next, g') ->
  updates' = (rng_next, 2 ^ Z.of_nat (length updates)) :: updates.
Proof.
  unfold cftp_round. destruct mc_min_max_states as [s0 s1].
  destruct (replay mc updates s0 s1 None g) as [[[[s0' s1'] rn] g1]|e];
    simpl; [|discriminate].
  destruct (mc_eq s0' s1'); [discriminate|].
  now intros [= <- <- <-].
Qed.

Lemma replay_keeps_resume (updates : list (option G * Z)) :
  forall s0 s1 r g s0' s1' rn g',
    replay mc updates s0 s1 (Some r) g = Ok (s0', s1', rn, g') ->
    rn = Some r.
Proof.
  induction updates as [|[rng steps] rest IH]; intros s0 s1 r g s0' s1' rn g'.
  - simpl. now intros [= _ _ <- _].
  - simpl. destruct (setstate rng) as [g1|]; simpl; [|discriminate].
    destruct (run_steps mc (Z.to_nat steps) s0 s1 g1) as [[[a b] g2]|];
      simpl; [|discriminate].
    apply IH.
Qed.

(** The resume point is the generator state reached at the end of the
    first entry replayed. *)
Lemma replay_resume (rng : option G) (steps : Z) (rest : list (option G * Z))
      (s0 s1 s0' s1' : S) (g g' : G) (rn : option G) :
  replay mc ((rng, steps) :: rest) s0 s1 None g = Ok (s0', s1', rn, g') ->
  exists g1 a b g2,
    setstate rng = Ok g1 /\
    run_steps mc (Z.to_nat steps) s0 s1 g1 = Ok (a, b, g2) /\
    rn = Some g2.
Proof.
  simpl. destruct (setstate rng) as [g1|]; simpl; [|discriminate].
  destruct (run_steps mc (Z.to_nat steps) s0 s1 g1) as [[[a b] g2]|] eqn:E;
    simpl; [|discriminate].
  intros Hr%replay_keeps_resume. exists g1, a, b, g2. auto.
Qed.

Lemma total_powers_desc (n : nat) :
  fold_right Z.add 0 (powers_desc n) = 2 ^ Z.of_nat n - 1.
Proof.
  induction n as [|n IH]; [reflexivity|].
  cbn [powers_desc fold_right]. rewrite IH.
  rewrite Nat2Z.inj_succ, Z.pow_succ_r by lia. lia.
Qed.

Lemma length_powers_desc (n : nat) : length (powers_desc n) = n.
Proof. induction n; simpl; congruence. Qed.

Lemma after_rounds_steps (g0 : G) (n : nat) (updates : list (option G * Z))
      (g : G) :
  after_rounds mc g0 n updates g ->
  map snd updates = powers_desc (Datatypes.S n).
Proof.
  induction 1 as [|n updates g updates' rn g' Hn IH Hround]; [reflexivity|].
  apply cftp_round_lookback in Hround. subst updates'.
  pose proof (f_equal (@length Z) IH) as Hlen.
  rewrite length_map, length_powers_desc in Hlen.
  cbn [map snd]. rewrite IH, Hlen. reflexivity.
Qed.
End CFTPFacts.

(** C4, as the code has it. In a round of [run_cftp] that replays all
    entries and finds the two states unequal, a new entry is put before
    all existing ones; its snapshot is the saved resume point (the
    generator state at the end of the oldest entry replayed) and its
    step count is [2 ** len(updates)]: one more than the total number of
    steps of the existing entries and double the count of the entry
    added before it, so that the counts read 1, 2, 4, 8, ... from the
    first entry on. *)
Theorem cftp_doubling_schedule {G S U : Type} (mc : MarkovChain G S U)
        (g0 : G) (n : nat) (updates updates' : list (option G * Z))
        (g g' : G) (rng_next : option G) :
  after_rounds mc g0 n updates g ->
  cftp_round mc updates g = Ok (LookBack updates', rng_next, g') ->
  let steps := 2 ^ (Z.of_nat n + 1) in
  updates' = (rng_next, steps) :: updates /\
  steps = total_steps updates + 1 /\
  (exists r prev rest, updates = (r, prev) :: rest /\ steps = 2 * prev) /\
  map snd updates' = powers_desc (n + 2) /\
  (exists rng0 steps0 rest g1 a b g2,
     updates = (rng0, steps0) :: rest /\
     setstate rng0 = Ok g1 /\
     run_steps mc (Z.to_nat steps0)
               (fst mc_min_max_states) (snd mc_min_max_states) g1
     = Ok (a, b, g2) /\
     rng_next = Some g2).
Proof.
  intros Hn Hround steps.
  pose proof (after_rounds_steps mc g0 n updates g Hn) as Hsteps.
  pose proof (cftp_round_lookback mc _ _ _ _ _ Hround) as Hup.
  pose proof (f_equal (@length Z) Hsteps) as Hlen.
  rewrite length_map, length_powers_desc in Hlen.
  assert (Hpow : 2 ^ Z.of_nat (length updates) = steps).
  { unfold steps. rewrite Hlen. f_equal. lia. }
  rewrite Hpow in Hup.
  split; [assumption|]. split; [|split; [|split]].
  - unfold total_steps. rewrite Hsteps, total_powers_desc.
    unfold steps. rewrite Nat2Z.inj_succ. unfold Z.succ. lia.
  - destruct updates as [|[r prev] rest]; [discriminate|].
    exists r, prev, rest. split; [reflexivity|].
    cbn [map snd powers_desc] in Hsteps. injection Hsteps as -> _.
    unfold steps. rewrite Z.pow_add_r by lia. lia.
  - rewrite Hup. cbn [map snd]. rewrite Hsteps.
    replace (n + 2)%nat with (Datatypes.S (Datatypes.S n)) by lia.
    cbn [powers_desc]. unfold steps. f_equal. f_equal. lia.
  - destruct updates as [|[rng0 steps0] rest]; [discriminate|].
    unfold cftp_round in Hround.
    destruct mc_min_max_states as [s0 s1]. simpl fst. simpl snd.
    destruct (replay mc ((rng0, steps0) :: rest) s0 s1 None g)
      as [[[[s0' s1'] rn] g1]|e] eqn:Hrep; simpl in Hround; [|discriminate].
    apply replay_resume in Hrep as (g1' & a & b & g2 & H1 & H2 & H3).
    destruct (mc_eq s0' s1'); [discriminate|].
    injection Hround as _ <- _.
    exists rng0, steps0, rest, g1', a, b, g2. auto.
Qed.

Lemma cftp_doubling_schedule_witness :
  let updates := [(Some 0, 1)] in
  let updates' := [(Some 654583775, 2); (Some 0, 1)] in
  let rng_next := Some 654583775 in
  let steps := 2 ^ (Z.of_nat 0 + 1) in
  updates' = (rng_next, steps) :: updates /\
  steps = total_steps updates + 1 /\
  (exists r prev rest, updates = (r, prev) :: rest /\ steps = 2 * prev) /\
  map snd updates' = powers_desc (0 + 2) /\
  (exists rng0 steps0 rest g1 a b g2,
     updates = (rng0, steps0) :: rest /\
     setstate rng0 = Ok g1 /\
     run_steps hexagon_222 (Z.to_nat steps0)
               (fst (@mc_min_max_states _ _ _ hexagon_222))
               (snd (@mc_min_max_states _ _ _ hexagon_222)) g1
     = Ok (a, b, g2) /\
     rng_next = Some g2).
Proof.
  apply (cftp_doubling_schedule hexagon_222 0 0 [(Some 0, 1)]
           [(Some 654583775, 2); (Some 0, 1)] 0 654583775 (Some 654583775)).
  - apply after_0.
  - vm_compute. reflexivity.
Defined.

(** On the (2 x 2 x 2) hexagon, started from generator state 0, the first
    round fails and leaves the entries with step counts [2; 1], three
    steps in all.  The second round fails too and the entry it adds has
    step count 4, not twice the total, 6. *)
Lemma cftp_doubling_not_twice_total :
  let updates := [(Some 654583775, 2); (Some 0, 1)] in
  after_rounds hexagon_222 0 1 updates 654583775 /\
  cftp_round hexagon_222 updates 654583775 =
    Ok (LookBack ((Some 794471793, 4) :: updates),
        Some 794471793, 654583775) /\
  total_steps updates = 3 /\
  4 <> 2 * total_steps updates.
Proof.
  intros updates. split; [|split; [|split]].
  - eapply after_S; [apply after_0|]. vm_compute. reflexivity.
  - vm_compute. reflexivity.
  - reflexivity.
  - vm_compute. discriminate.
Qed.

(** With a generator whose [randint lo hi] stays within [lo..hi], the
    updates drawn lie inside the hexagon: [1 <= k <= c],
    [1 <= j <= a + b - 1], and [dy] is 0 or 1. *)
Lemma new_random_update_in_range {G} `{RandomSource G} (a b c : Z)
      (g g' : G) (k j dy : Z) :
  (forall lo hi g v g', randint lo hi g = Ok (v, g') -> lo <= v <= hi) ->
  new_random_update (mkLozengeTiling (a, b, c)) g = Ok ((k, j, dy), g') ->
  1 <= k <= c /\ 1 <= j <= a + b - 1 /\ 0 <= dy <= 1.
Proof.
  intros Hrange. unfold new_random_update. simpl.
  destruct (randint 1 c g) as [[k0 g1]|] eqn:E1; simpl; [|discriminate].
  destruct (randint 1 (a + b - 1) g1) as [[j0 g2]|] eqn:E2; simpl;
    [|discriminate].
  destruct (randint 0 1 g2) as [[d0 g3]|] eqn:E3; simpl; [|discriminate].
  intros [= <- <- <- <-].
  apply Hrange in E1, E2, E3. auto.
Qed.

(** * Further properties of the code *)

(** ** Tiling states are kept by [update] *)

Lemma forallb_range (n : Z) (f : Z -> bool) :
  forallb f (range n) = true <-> forall k, 0 <= k < n -> f k = true.
Proof.
  rewrite forallb_forall. split.
  - intros H k Hk. apply H. now apply range_In.
  - intros H k Hk%range_In. now apply H.
Qed.

Lemma strict_non_crossing_spec (a b c : Z) (s : state) :
  shape_ok a b c s = true ->
  strict_non_crossing a b c s = true <->
  forall k j, 0 <= k <= c -> 0 <= j <= a + b ->
    hgt s k j < hgt s (k + 1) j.
Proof.
  intros Hs. unfold strict_non_crossing. rewrite grid_forallb.
  split; intros H k j Hk Hj.
  - specialize (H k j ltac:(lia) ltac:(lia)).
    rewrite !(shape_item2 a b c) in H by (assumption || lia). lia.
  - rewrite !(shape_item2 a b c) by (assumption || lia).
    specialize (H k j ltac:(lia) ltac:(lia)). lia.
Qed.

Lemma boundary_ok_spec (a b c : Z) (s : state) :
  shape_ok a b c s = true -> 0 <= a + b -> -1 <= c ->
  boundary_ok a b c s = true <->
  (forall k, 0 <= k <= c + 1 ->
     hgt s k 0 = k /\ hgt s k (a + b) = k + b) /\
  (forall j, 0 <= j <= a + b ->
     hgt s 0 j = Z.max (j - a) 0 /\ hgt s (c + 1) j = c + 1 + Z.min j b).
Proof.
  intros Hs Hab Hc. unfold boundary_ok.
  rewrite andb_true_iff, !forallb_range.
  split; intros [H1 H2]; split.
  - intros k Hk. specialize (H1 k ltac:(lia)).
    rewrite !(shape_item2 a b c) in H1 by (assumption || lia).
    apply andb_true_iff in H1. lia.
  - intros j Hj. specialize (H2 j ltac:(lia)).
    rewrite !(shape_item2 a b c) in H2 by (assumption || lia).
    apply andb_true_iff in H2. lia.
  - intros k Hk. rewrite !(shape_item2 a b c) by (assumption || lia).
    specialize (H1 k ltac:(lia)). apply andb_true_iff. lia.
  - intros j Hj. rewrite !(shape_item2 a b c) by (assumption || lia).
    specialize (H2 j ltac:(lia)). apply andb_true_iff. lia.
Qed.

Lemma tiling_state_inv (a b c : Z) (s : state) :
  tiling_state a b c s = true ->
  invariants a b c s = true /\ strict_non_crossing a b c s = true /\
  boundary_ok a b c s = true.
Proof.
  unfold tiling_state. rewrite !andb_true_iff. tauto.
Qed.

(** The invariants after an update inside the hexagon. *)
Lemma updated_invariants (a b c : Z) (s : state) (k j dy : Z) :
  invariants a b c s = true -> 1 <= k <= c -> 1 <= j <= a + b - 1 ->
  invariants a b c (updated s (k, j, dy)) = true.
Proof.
  intros Hinv Hk Hj.
  pose proof (invariants_shape _ _ _ _ Hinv) as Hs.
  pose proof (updated_shape a b c s k j Hs Hk Hj dy) as Hs'.
  pose proof (invariants_at a b c s k j Hinv Hk Hj) as (P1 & P2 & N1 & N2).
  pose proof (delta_spec a b c s k j Hs Hk Hj dy) as Hd. simpl in Hd.
  apply (invariants_spec a b c s Hs) in Hinv as [Hpm Hnc].
  apply (invariants_spec a b c _ Hs'). split; intros k' j' Hk' Hj';
    rewrite !(updated_hgt a b c s k j Hs Hk Hj) by lia.
  - pose proof (Hpm k' j' Hk' Hj') as G.
    destruct (Z.eqb_spec k' k) as [->|?]; simpl; [|lia].
    destruct (Z.eqb_spec j' j) as [E|?];
      destruct (Z.eqb_spec (j' + 1) j) as [E'|?]; simpl; try lia.
    + subst j'. lia.
    + assert (j' = j - 1) as -> by lia. lia.
  - pose proof (Hnc k' j' Hk' Hj') as G.
    destruct (Z.eqb_spec j' j) as [->|?]; rewrite ?andb_false_r; [|lia].
    rewrite !andb_true_r.
    destruct (Z.eqb_spec k' k) as [E|?];
      destruct (Z.eqb_spec (k' + 1) k) as [E'|?]; simpl; try lia.
    + subst k'. lia.
    + assert (k' = k - 1) as -> by lia. lia.
Qed.

(** The invariants of the two extremal states. *)
Lemma min_max_invariants (a b c : Z) :
  0 <= a -> 0 <= b -> 0 <= c ->
  invariants a b c (fst (min_max_states (mkLozengeTiling (a, b, c)))) = true
  /\
  invariants a b c (snd (min_max_states (mkLozengeTiling (a, b, c)))) = true.
Proof.
  intros Ha Hb Hc.
  destruct (min_max_facts a b c Ha Hb Hc) as (Hs0 & Hs1 & H0 & H1).
  cbv zeta in *. split.
  - apply (invariants_spec a b c _ Hs0). split; intros k j Hk Hj;
      rewrite !H0 by lia.
    + destruct (Z.eqb_spec k 0); lia.
    + destruct (Z.eqb_spec k 0); destruct (Z.eqb_spec (k + 1) 0); lia.
  - apply (invariants_spec a b c _ Hs1). split; intros k j Hk Hj;
      rewrite !H1 by lia.
    + destruct (Z.eqb_spec k (c + 1)); lia.
    + destruct (Z.eqb_spec k (c + 1));
        destruct (Z.eqb_spec (k + 1) (c + 1)); lia.
Qed.

(** A tiling state stays one under an update inside the hexagon. *)
Lemma updated_tiling_state (a b c : Z) (s : state) (k j dy : Z) :
  tiling_state a b c s = true -> 1 <= k <= c -> 1 <= j <= a + b - 1 ->
  fst (update (k, j, dy) s) = Ok tt /\
  tiling_state a b c (updated s (k, j, dy)) = true.
Proof.
  intros (Hinv & Hstrict & Hbound)%tiling_state_inv Hk Hj.
  pose proof (invariants_shape _ _ _ _ Hinv) as Hs.
  pose proof (updated_invariants a b c s k j dy Hinv Hk Hj) as Hinv'.
  split; [now rewrite (update_in_range a b c s k j Hs Hk Hj)|].
  pose proof (updated_shape a b c s k j Hs Hk Hj dy) as Hs'.
  pose proof (invariants_at a b c s k j Hinv Hk Hj) as (P1 & P2 & N1 & N2).
  pose proof (delta_spec a b c s k j Hs Hk Hj dy) as Hd. simpl in Hd.
  pose proof (proj1 (strict_non_crossing_spec a b c s Hs) Hstrict) as Hsn.
  pose proof (proj1 (boundary_ok_spec a b c s Hs ltac:(lia) ltac:(lia))
                Hbound) as [Hb1 Hb2].
  unfold tiling_state. rewrite Hinv'. simpl. apply andb_true_iff. split.
  - apply (strict_non_crossing_spec a b c _ Hs'). intros k' j' Hk' Hj'.
    rewrite !(updated_hgt a b c s k j Hs Hk Hj) by lia.
    pose proof (Hsn k' j' Hk' Hj') as G.
    pose proof (Hsn (k - 1) j ltac:(lia) ltac:(lia)) as G1.
    pose proof (Hsn k j ltac:(lia) ltac:(lia)) as G2.
    replace (k - 1 + 1) with k in G1 by lia.
    destruct (Z.eqb_spec j' j) as [->|?]; rewrite ?andb_false_r; [|lia].
    rewrite !andb_true_r.
    destruct (Z.eqb_spec k' k) as [E|?];
      destruct (Z.eqb_spec (k' + 1) k) as [E'|?]; simpl; try lia.
    + subst k'. lia.
    + assert (k' = k - 1) as -> by lia. lia.
  - apply (boundary_ok_spec a b c _ Hs' ltac:(lia) ltac:(lia)). split.
    + intros k' Hk'.
      rewrite !(updated_hgt a b c s k j Hs Hk Hj) by lia.
      destruct (Z.eqb_spec 0 j); [lia|].
      destruct (Z.eqb_spec (a + b) j); [lia|].
      rewrite !andb_false_r. now apply Hb1.
    + intros j' Hj'.
      rewrite !(updated_hgt a b c s k j Hs Hk Hj) by lia.
      destruct (Z.eqb_spec 0 k); [lia|].
      destruct (Z.eqb_spec (c + 1) k); [lia|].
      simpl. now apply Hb2.
Qed.

(** [update] keeps tiling states: after an update inside the hexagon the
    paths still satisfy the invariants, neighbouring paths are still
    strictly apart, and the end points and the two outer paths are
    where they were. *)
Theorem update_preserves_tiling_state (a b c : Z) (s : state) (k j dy : Z) :
  tiling_state a b c s = true -> 1 <= k <= c -> 1 <= j <= a + b - 1 ->
  fst (update (k, j, dy) s) = Ok tt /\
  tiling_state a b c (updated s (k, j, dy)) = true.
Proof.
  apply updated_tiling_state.
Qed.

Lemma update_preserves_tiling_state_witness :
  let s := [[0; 0; 1]; [1; 1; 2]; [2; 3; 3]] in
  fst (update (1, 1, 1) s) = Ok tt /\
  tiling_state 1 1 1 (updated s (1, 1, 1)) = true.
Proof.
  intros s.
  apply (update_preserves_tiling_state 1 1 1 s 1 1 1); [reflexivity|lia|lia].
Defined.

(** The extremal states are tiling states. *)
Lemma min_max_tiling (a b c : Z) :
  1 <= a -> 1 <= b -> 1 <= c ->
  tiling_state a b c (fst (min_max_states (mkLozengeTiling (a, b, c)))) = true
  /\
  tiling_state a b c (snd (min_max_states (mkLozengeTiling (a, b, c)))) = true.
Proof.
  intros Ha Hb Hc.
  destruct (min_max_invariants a b c ltac:(lia) ltac:(lia) ltac:(lia))
    as [Hi0 Hi1].
  destruct (min_max_facts a b c ltac:(lia) ltac:(lia) ltac:(lia))
    as (Hs0 & Hs1 & H0 & H1).
  cbv zeta in *.
  unfold tiling_state. rewrite Hi0, Hi1. simpl.
  split; apply andb_true_iff; split.
  - apply (strict_non_crossing_spec a b c _ Hs0). intros k j Hk Hj.
    rewrite !H0 by lia.
    destruct (Z.eqb_spec k 0); destruct (Z.eqb_spec (k + 1) 0); lia.
  - apply (boundary_ok_spec a b c _ Hs0); try lia.
    split; [intros k Hk|intros j Hj]; rewrite !H0 by lia.
    + destruct (Z.eqb_spec k 0); lia.
    + destruct (Z.eqb_spec (c + 1) 0); simpl; lia.
  - apply (strict_non_crossing_spec a b c _ Hs1). intros k j Hk Hj.
    rewrite !H1 by lia.
    destruct (Z.eqb_spec k (c + 1));
      destruct (Z.eqb_spec (k + 1) (c + 1)); lia.
  - apply (boundary_ok_spec a b c _ Hs1); try lia.
    split; [intros k Hk|intros j Hj]; rewrite !H1 by lia.
    + destruct (Z.eqb_spec k (c + 1)); lia.
    + rewrite Z.eqb_refl. destruct (Z.eqb_spec 0 (c + 1)); lia.
Qed.

(** Both states returned by [min_max_states] are tiling states, for
    positive side lengths. *)
Theorem min_max_states_tiling (a b c : Z) :
  1 <= a -> 1 <= b -> 1 <= c ->
  tiling_state a b c (fst (min_max_states (mkLozengeTiling (a, b, c)))) = true
  /\
  tiling_state a b c (snd (min_max_states (mkLozengeTiling (a, b, c)))) = true.
Proof.
  apply min_max_tiling.
Qed.

Lemma min_max_states_tiling_witness :
  tiling_state 2 1 1 (fst (min_max_states (mkLozengeTiling (2, 1, 1)))) = true
  /\
  tiling_state 2 1 1 (snd (min_max_states (mkLozengeTiling (2, 1, 1)))) = true.
Proof.
  apply (min_max_states_tiling 2 1 1); lia.
Defined.

(** ** Legal moves can be undone *)

Lemma poke_poke (s : state) (k j : nat) (v w : Z) :
  poke (poke s k j v) k j w = poke s k j w.
Proof.
  unfold poke. destruct (s !! k) as [row|] eqn:Hrow.
  - rewrite list_lookup_insert_eq by (eapply lookup_lt_Some; eassumption).
    now rewrite !list_insert_insert_eq.
  - now rewrite Hrow.
Qed.

Lemma poke_same (a b c : Z) (s : state) (k j : Z) :
  shape_ok a b c s = true -> 0 <= k <= c + 1 -> 0 <= j <= a + b ->
  poke s (Z.to_nat k) (Z.to_nat j) (hgt s k j) = s.
Proof.
  intros Hs Hk Hj.
  destruct (shape_row a b c s k Hs Hk) as (row & Hrow & _ & Hlen).
  destruct (lookup_lt_is_Some_2 row (Z.to_nat j)) as [h Hh]; [lia|].
  destruct (hgt_lookup s k j row h) as [_ ->]; try (assumption || lia).
  unfold poke. rewrite Hrow.
  rewrite (list_insert_id row) by assumption.
  now apply list_insert_id.
Qed.

Lemma updated_poke (a b c : Z) (s : state) (k j dy : Z) :
  shape_ok a b c s = true -> 1 <= k <= c -> 1 <= j <= a + b - 1 ->
  updated s (k, j, dy) =
  poke s (Z.to_nat k) (Z.to_nat j) (hgt s k j + delta s (k, j, dy)).
Proof.
  intros Hs Hk Hj. unfold updated.
  now rewrite (update_in_range a b c s k j Hs Hk Hj).
Qed.

Lemma updated_hgt_near (a b c : Z) (s : state) (k j dy : Z) :
  shape_ok a b c s = true -> 1 <= k <= c -> 1 <= j <= a + b - 1 ->
  let t := updated s (k, j, dy) in
  hgt t k j = hgt s k j + delta s (k, j, dy) /\
  hgt t k (j - 1) = hgt s k (j - 1) /\
  hgt t k (j + 1) = hgt s k (j + 1) /\
  hgt t (k - 1) j = hgt s (k - 1) j /\
  hgt t (k + 1) j = hgt s (k + 1) j.
Proof.
  intros Hs Hk Hj t. unfold t.
  rewrite !(updated_hgt a b c s k j Hs Hk Hj) by lia.
  rewrite !Z.eqb_refl.
  destruct (Z.eqb_spec (k - 1) k); [lia|].
  destruct (Z.eqb_spec (k + 1) k); [lia|].
  destruct (Z.eqb_spec (j - 1) j); [lia|].
  destruct (Z.eqb_spec (j + 1) j); [lia|].
  cbn [andb]. repeat split.
Qed.

(** On a tiling state a legal push is undone by the opposite push at the
    same place: after a legal push up, pushing down is legal and gives
    the state back, and the same with the two directions exchanged. *)
Theorem legal_moves_reversible (a b c : Z) (s : state) (k j : Z) :
  tiling_state a b c s = true -> 1 <= k <= c -> 1 <= j <= a + b - 1 ->
  (up_legal s k j = true ->
   down_legal (updated s (k, j, 1)) k j = true /\
   updated (updated s (k, j, 1)) (k, j, 0) = s) /\
  (down_legal s k j = true ->
   up_legal (updated s (k, j, 0)) k j = true /\
   updated (updated s (k, j, 0)) (k, j, 1) = s).
Proof.
  intros (Hinv & Hstrict & _)%tiling_state_inv Hk Hj.
  pose proof (invariants_shape _ _ _ _ Hinv) as Hs.
  pose proof (proj1 (strict_non_crossing_spec a b c s Hs) Hstrict) as Hsn.
  pose proof (Hsn (k - 1) j ltac:(lia) ltac:(lia)) as G1.
  pose proof (Hsn k j ltac:(lia) ltac:(lia)) as G2.
  replace (k - 1 + 1) with k in G1 by lia.
  pose proof (invariants_at a b c s k j Hinv Hk Hj) as (P1 & P2 & N1 & N2).
  assert (Hback : forall dy dy' d,
            delta s (k, j, dy) = d ->
            delta (updated s (k, j, dy)) (k, j, dy') = - d ->
            updated (updated s (k, j, dy)) (k, j, dy') = s).
  { intros dy dy' d Hd Hd'.
    pose proof (updated_shape a b c s k j Hs Hk Hj dy) as Ht.
    destruct (updated_hgt_near a b c s k j dy Hs Hk Hj) as (E & _).
    rewrite (updated_poke a b c _ k j dy' Ht Hk Hj), Hd', E, Hd.
    rewrite (updated_poke a b c s k j dy Hs Hk Hj), poke_poke.
    replace (hgt s k j + d + - d) with (hgt s k j) by lia.
    apply (poke_same a b c); (assumption || lia). }
  split; intros Hl.
  - pose proof (updated_shape a b c s k j Hs Hk Hj 1) as Ht.
    assert (Hd1 : delta s (k, j, 1) = 1).
    { unfold delta. change (1 =? 1) with true. cbv iota. now rewrite Hl. }
    destruct (updated_hgt_near a b c s k j 1 Hs Hk Hj)
      as (E0 & E1 & E2 & E3 & E4).
    rewrite (up_legal_hgt a b c s k j Hs Hk Hj) in Hl.
    rewrite !andb_true_iff, !Z.ltb_lt, Z.eqb_eq in Hl.
    assert (Hl' : down_legal (updated s (k, j, 1)) k j = true).
    { rewrite (down_legal_hgt a b c _ k j Ht Hk Hj), E0, E1, E2, E3, Hd1.
      rewrite !andb_true_iff, !Z.ltb_lt, Z.eqb_eq. lia. }
    split; [assumption|].
    apply (Hback 1 0 1 Hd1).
    unfold delta. change (0 =? 1) with false. cbv iota. now rewrite Hl'.
  - pose proof (updated_shape a b c s k j Hs Hk Hj 0) as Ht.
    assert (Hd1 : delta s (k, j, 0) = -1).
    { unfold delta. change (0 =? 1) with false. cbv iota. now rewrite Hl. }
    destruct (updated_hgt_near a b c s k j 0 Hs Hk Hj)
      as (E0 & E1 & E2 & E3 & E4).
    rewrite (down_legal_hgt a b c s k j Hs Hk Hj) in Hl.
    rewrite !andb_true_iff, !Z.ltb_lt, Z.eqb_eq in Hl.
    assert (Hl' : up_legal (updated s (k, j, 0)) k j = true).
    { rewrite (up_legal_hgt a b c _ k j Ht Hk Hj), E0, E1, E2, E4, Hd1.
      rewrite !andb_true_iff, !Z.ltb_lt, Z.eqb_eq. lia. }
    split; [assumption|].
    apply (Hback 0 1 (-1) Hd1).
    unfold delta. change (1 =? 1) with true. cbv iota. now rewrite Hl'.
Qed.

Lemma legal_moves_reversible_witness :
  let s := [[0; 0; 1]; [1; 1; 2]; [2; 3; 3]] in
  (up_legal s 1 1 = true ->
   down_legal (updated s (1, 1, 1)) 1 1 = true /\
   updated (updated s (1, 1, 1)) (1, 1, 0) = s) /\
  (down_legal s 1 1 = true ->
   up_legal (updated s (1, 1, 0)) 1 1 = true /\
   updated (updated s (1, 1, 0)) (1, 1, 1) = s).
Proof.
  intros s.
  apply (legal_moves_reversible 1 1 1 s 1 1); [reflexivity|lia|lia].
Defined.

(** ** The extremal states bound every tiling state *)

Lemma path_bound (a b c : Z) (s : state) (k : Z) :
  invariants a b c s = true -> 0 <= k <= c + 1 ->
  forall (n : nat) (j : Z), 0 <= j -> j + Z.of_nat n <= a + b ->
    hgt s k j <= hgt s k (j + Z.of_nat n) <= hgt s k j + Z.of_nat n.
Proof.
  intros Hinv Hk.
  pose proof (invariants_shape _ _ _ _ Hinv) as Hs.
  apply (invariants_spec a b c s Hs) in Hinv as [Hpm _].
  induction n as [|n IH]; intros j Hj Hn.
  - replace (j + Z.of_nat 0) with j by lia. lia.
  - specialize (IH j Hj ltac:(lia)).
    pose proof (Hpm k (j + Z.of_nat n) Hk ltac:(lia)) as P.
    replace (j + Z.of_nat (S n)) with (j + Z.of_nat n + 1) by lia. lia.
Qed.

(** A tiling state is bounded by the extremal states. *)
Lemma tiling_between (a b c : Z) (s : state) :
  1 <= a -> 1 <= b -> 1 <= c ->
  tiling_state a b c s = true ->
  state_le a b c (snd (min_max_states (mkLozengeTiling (a, b, c)))) s = true
  /\
  state_le a b c s (fst (min_max_states (mkLozengeTiling (a, b, c)))) = true.
Proof.
  intros Ha Hb Hc (Hinv & _ & Hbound)%tiling_state_inv.
  pose proof (invariants_shape _ _ _ _ Hinv) as Hs.
  destruct (min_max_facts a b c ltac:(lia) ltac:(lia) ltac:(lia))
    as (Hs0 & Hs1 & H0 & H1). cbv zeta in *.
  pose proof (proj1 (boundary_ok_spec a b c s Hs ltac:(lia) ltac:(lia))
                Hbound) as [Hb1 Hb2].
  assert (Hmid : forall k j, 0 <= k <= c + 1 -> 0 <= j <= a + b ->
            k + Z.max (j - a) 0 <= hgt s k j <= k + Z.min j b).
  { intros k j Hk Hj.
    pose proof (path_bound a b c s k Hinv Hk (Z.to_nat j) 0
                  ltac:(lia) ltac:(lia)) as P1.
    pose proof (path_bound a b c s k Hinv Hk (Z.to_nat (a + b - j)) j
                  ltac:(lia) ltac:(lia)) as P2.
    rewrite Z2Nat.id in P1, P2 by lia.
    replace (0 + j) with j in P1 by lia.
    replace (j + (a + b - j)) with (a + b) in P2 by lia.
    destruct (Hb1 k Hk) as [E1 E2]. lia. }
  split.
  - apply (state_le_spec a b c _ Hs1 s Hs). intros k j Hk Hj.
    rewrite H1 by lia. pose proof (Hmid k j Hk Hj).
    destruct (Z.eqb_spec k (c + 1)) as [->|?]; [|lia].
    destruct (Hb2 j Hj). lia.
  - apply (state_le_spec a b c s Hs _ Hs0). intros k j Hk Hj.
    rewrite H0 by lia. pose proof (Hmid k j Hk Hj).
    destruct (Z.eqb_spec k 0) as [->|?]; [|lia].
    destruct (Hb2 j Hj). lia.
Qed.

(** Every tiling state lies between the two states of [min_max_states]:
    pointwise above the second and below the first. *)
Theorem tiling_state_between_extremes (a b c : Z) (s : state) :
  1 <= a -> 1 <= b -> 1 <= c ->
  tiling_state a b c s = true ->
  state_le a b c (snd (min_max_states (mkLozengeTiling (a, b, c)))) s = true
  /\
  state_le a b c s (fst (min_max_states (mkLozengeTiling (a, b, c)))) = true.
Proof.
  apply tiling_between.
Qed.

Lemma tiling_state_between_extremes_witness :
  let s := [[0; 0; 0; 1]; [1; 1; 2; 2]; [2; 3; 3; 3]] in
  state_le 2 1 1 (snd (min_max_states (mkLozengeTiling (2, 1, 1)))) s = true
  /\
  state_le 2 1 1 s (fst (min_max_states (mkLozengeTiling (2, 1, 1)))) = true.
Proof.
  intros s.
  apply (tiling_state_between_extremes 2 1 1 s); [lia|lia|lia|reflexivity].
Defined.

(** ** Sequences of updates *)

Lemma updated_state_le (a b c : Z) (s s' : state) (k j dy : Z) :
  invariants a b c s = true -> invariants a b c s' = true ->
  state_le a b c s s' = true ->
  1 <= k <= c -> 1 <= j <= a + b - 1 ->
  state_le a b c (updated s (k, j, dy)) (updated s' (k, j, dy)) = true.
Proof.
  intros Hinv Hinv' Hle Hk Hj.
  pose proof (invariants_shape _ _ _ _ Hinv) as Hs.
  pose proof (invariants_shape _ _ _ _ Hinv') as Hs'.
  pose proof (updated_shape a b c s k j Hs Hk Hj dy) as Ht.
  pose proof (updated_shape a b c s' k j Hs' Hk Hj dy) as Ht'.
  pose proof (invariants_at a b c s k j Hinv Hk Hj) as (P1 & P2 & N1 & N2).
  pose proof (invariants_at a b c s' k j Hinv' Hk Hj)
    as (P1' & P2' & N1' & N2').
  pose proof (delta_spec a b c s k j Hs Hk Hj dy) as Hd. cbv zeta in Hd.
  pose proof (delta_spec a b c s' k j Hs' Hk Hj dy) as Hd'. cbv zeta in Hd'.
  pose proof (proj1 (state_le_spec a b c s Hs s' Hs') Hle) as L.
  apply (state_le_spec a b c _ Ht _ Ht').
  intros k' j' Hk' Hj'.
  rewrite (updated_hgt a b c s k j Hs Hk Hj) by lia.
  rewrite (updated_hgt a b c s' k j Hs' Hk Hj) by lia.
  destruct ((k' =? k) && (j' =? j)); [|now apply L].
  pose proof (L k (j - 1) ltac:(lia) ltac:(lia)).
  pose proof (L k j ltac:(lia) ltac:(lia)).
  pose proof (L k (j + 1) ltac:(lia) ltac:(lia)).
  pose proof (L (k - 1) j ltac:(lia) ltac:(lia)).
  pose proof (L (k + 1) j ltac:(lia) ltac:(lia)).
  lia.
Qed.

Lemma update_result_in_range (a b c : Z) (s : state) (k j dy : Z) :
  shape_ok a b c s = true -> 1 <= k <= c -> 1 <= j <= a + b - 1 ->
  update_result s (k, j, dy) = Ok (updated s (k, j, dy)).
Proof.
  intros Hs Hk Hj. unfold update_result, updated.
  now rewrite (update_in_range a b c s k j Hs Hk Hj).
Qed.

(** Two states of the same shape with the same heights are the same
    list of lists. *)
Lemma state_ext (a b c : Z) (s t : state) :
  shape_ok a b c s = true -> shape_ok a b c t = true ->
  (forall k j, 0 <= k <= c + 1 -> 0 <= j <= a + b ->
     hgt s k j = hgt t k j) ->
  s = t.
Proof.
  intros Hs Ht Heq.
  pose proof (proj1 (shape_ok_spec a b c s) Hs) as [Ls _].
  pose proof (proj1 (shape_ok_spec a b c t) Ht) as [Lt _].
  apply list_eq. intros i.
  destruct (decide (i < length s)%nat) as [Hi|Hi].
  - destruct (shape_row a b c s (Z.of_nat i) Hs ltac:(lia))
      as (r1 & Hr1 & _ & Len1).
    destruct (shape_row a b c t (Z.of_nat i) Ht ltac:(lia))
      as (r2 & Hr2 & _ & Len2).
    rewrite Nat2Z.id in Hr1, Hr2. rewrite Hr1, Hr2. f_equal.
    apply list_eq. intros n.
    destruct (decide (n < length r1)%nat) as [Hn|Hn].
    + destruct (lookup_lt_is_Some_2 r1 n Hn) as [h1 Hh1].
      destruct (lookup_lt_is_Some_2 r2 n ltac:(lia)) as [h2 Hh2].
      rewrite Hh1, Hh2. f_equal.
      destruct (hgt_lookup s (Z.of_nat i) (Z.of_nat n) r1 h1)
        as [_ <-]; rewrite ?Nat2Z.id; try (assumption || lia).
      destruct (hgt_lookup t (Z.of_nat i) (Z.of_nat n) r2 h2)
        as [_ <-]; rewrite ?Nat2Z.id; try (assumption || lia).
      apply Heq; lia.
    + rewrite !lookup_ge_None_2 by lia. reflexivity.
  - rewrite !lookup_ge_None_2 by lia. reflexivity.
Qed.

Lemma state_le_antisym (a b c : Z) (s t : state) :
  shape_ok a b c s = true -> shape_ok a b c t = true ->
  state_le a b c s t = true -> state_le a b c t s = true -> s = t.
Proof.
  intros Hs Ht H1 H2.
  pose proof (proj1 (state_le_spec a b c s Hs t Ht) H1) as L1.
  pose proof (proj1 (state_le_spec a b c t Ht s Hs) H2) as L2.
  apply (state_ext a b c); try assumption.
  intros k j Hk Hj. specialize (L1 k j Hk Hj). specialize (L2 k j Hk Hj). lia.
Qed.

Lemma apply_updates_tiling (a b c : Z) (us : list upd) :
  Forall (in_hexagon a b c) us ->
  forall s, tiling_state a b c s = true ->
    exists t, apply_updates us s = Ok t /\ tiling_state a b c t = true.
Proof.
  induction 1 as [|[[k j] dy] us [Hk Hj] _ IH]; intros s Hs.
  - exists s. split; [reflexivity|assumption].
  - pose proof (tiling_state_inv _ _ _ _ Hs) as (Hinv & _).
    pose proof (invariants_shape _ _ _ _ Hinv) as Hshape.
    destruct (updated_tiling_state a b c s k j dy Hs Hk Hj)
      as [_ Ht].
    simpl. rewrite (update_result_in_range a b c s k j dy Hshape Hk Hj).
    simpl. now apply IH.
Qed.

Lemma apply_updates_state_le (a b c : Z) (us : list upd) :
  Forall (in_hexagon a b c) us ->
  forall s s' t t',
    tiling_state a b c s = true -> tiling_state a b c s' = true ->
    state_le a b c s s' = true ->
    apply_updates us s = Ok t -> apply_updates us s' = Ok t' ->
    state_le a b c t t' = true.
Proof.
  induction 1 as [|[[k j] dy] us [Hk Hj] _ IH]; intros s s' t t' Hs Hs' Hle.
  - simpl. now intros [= <-] [= <-].
  - pose proof (tiling_state_inv _ _ _ _ Hs) as (Hinv & _).
    pose proof (tiling_state_inv _ _ _ _ Hs') as (Hinv' & _).
    pose proof (invariants_shape _ _ _ _ Hinv) as Hshape.
    pose proof (invariants_shape _ _ _ _ Hinv') as Hshape'.
    simpl.
    rewrite (update_result_in_range a b c s k j dy Hshape Hk Hj).
    rewrite (update_result_in_range a b c s' k j dy Hshape' Hk Hj).
    simpl. apply IH.
    + apply (updated_tiling_state a b c s k j dy Hs Hk Hj).
    + apply (updated_tiling_state a b c s' k j dy Hs' Hk Hj).
    + now apply updated_state_le.
Qed.

(** Three ordered runs of one sequence of updates. *)
Lemma updates_sandwich (a b c : Z) (us : list upd)
        (lo mid hi : state) :
  Forall (in_hexagon a b c) us ->
  tiling_state a b c lo = true -> tiling_state a b c mid = true ->
  tiling_state a b c hi = true ->
  state_le a b c lo mid = true -> state_le a b c mid hi = true ->
  exists lo' mid' hi',
    apply_updates us lo = Ok lo' /\ apply_updates us mid = Ok mid' /\
    apply_updates us hi = Ok hi' /\
    tiling_state a b c mid' = true /\
    state_le a b c lo' mid' = true /\ state_le a b c mid' hi' = true /\
    (lo' = hi' -> mid' = lo').
Proof.
  intros Hus Hlo Hmid Hhi L1 L2.
  destruct (apply_updates_tiling a b c us Hus lo Hlo) as (lo' & Elo & Tlo).
  destruct (apply_updates_tiling a b c us Hus mid Hmid) as (mid' & Emid & Tmid).
  destruct (apply_updates_tiling a b c us Hus hi Hhi) as (hi' & Ehi & Thi).
  exists lo', mid', hi'.
  pose proof (apply_updates_state_le a b c us Hus _ _ _ _ Hlo Hmid L1 Elo Emid)
    as L1'.
  pose proof (apply_updates_state_le a b c us Hus _ _ _ _ Hmid Hhi L2 Emid Ehi)
    as L2'.
  repeat split; try assumption.
  intros <-. symmetry.
  pose proof (tiling_state_inv _ _ _ _ Tlo) as (Hi1 & _).
  pose proof (tiling_state_inv _ _ _ _ Tmid) as (Hi2 & _).
  apply (state_le_antisym a b c); try assumption;
    now apply invariants_shape.
Qed.

(** The coupling argument.  Apply one sequence of updates inside the
    hexagon to three tiling states ordered [lo <= mid <= hi]: none of
    the three runs raises, the results are tiling states ordered the
    same way, and if the two outer runs end in the same state the
    middle one ends there too. *)
Theorem apply_updates_sandwich (a b c : Z) (us : list upd)
        (lo mid hi : state) :
  Forall (in_hexagon a b c) us ->
  tiling_state a b c lo = true -> tiling_state a b c mid = true ->
  tiling_state a b c hi = true ->
  state_le a b c lo mid = true -> state_le a b c mid hi = true ->
  exists lo' mid' hi',
    apply_updates us lo = Ok lo' /\ apply_updates us mid = Ok mid' /\
    apply_updates us hi = Ok hi' /\
    tiling_state a b c lo' = true /\ tiling_state a b c mid' = true /\
    tiling_state a b c hi' = true /\
    state_le a b c lo' mid' = true /\ state_le a b c mid' hi' = true /\
    (lo' = hi' -> mid' = lo').
Proof.
  intros Hus Hlo Hmid Hhi L1 L2.
  destruct (apply_updates_tiling a b c us Hus lo Hlo) as (lo' & Elo & Tlo).
  destruct (apply_updates_tiling a b c us Hus mid Hmid) as (mid' & Emid & Tmid).
  destruct (apply_updates_tiling a b c us Hus hi Hhi) as (hi' & Ehi & Thi).
  exists lo', mid', hi'.
  pose proof (apply_updates_state_le a b c us Hus _ _ _ _ Hlo Hmid L1 Elo Emid)
    as L1'.
  pose proof (apply_updates_state_le a b c us Hus _ _ _ _ Hmid Hhi L2 Emid Ehi)
    as L2'.
  repeat split; try assumption.
  intros <-. symmetry.
  pose proof (tiling_state_inv _ _ _ _ Tlo) as (Hi1 & _).
  pose proof (tiling_state_inv _ _ _ _ Tmid) as (Hi2 & _).
  apply (state_le_antisym a b c); try assumption;
    now apply invariants_shape.
Qed.

Lemma apply_updates_sandwich_witness :
  let lo := [[0; 0; 0; 1]; [1; 1; 1; 2]; [2; 3; 3; 3]] in
  let mid := [[0; 0; 0; 1]; [1; 1; 2; 2]; [2; 3; 3; 3]] in
  let hi := [[0; 0; 0; 1]; [1; 2; 2; 2]; [2; 3; 3; 3]] in
  exists lo' mid' hi',
    apply_updates [(1, 1, 1); (1, 2, 1)] lo = Ok lo' /\
    apply_updates [(1, 1, 1); (1, 2, 1)] mid = Ok mid' /\
    apply_updates [(1, 1, 1); (1, 2, 1)] hi = Ok hi' /\
    tiling_state 2 1 1 lo' = true /\ tiling_state 2 1 1 mid' = true /\
    tiling_state 2 1 1 hi' = true /\
    state_le 2 1 1 lo' mid' = true /\ state_le 2 1 1 mid' hi' = true /\
    (lo' = hi' -> mid' = lo').
Proof.
  intros lo mid hi.
  apply (apply_updates_sandwich 2 1 1 [(1, 1, 1); (1, 2, 1)] lo mid hi);
    try reflexivity.
  repeat constructor; lia.
Defined.

(** ** Rounds of the driver replay one sequence of updates *)

Section DrawFacts.
Context {G S U : Type} (mc : MarkovChain G S U).

Lemma fold_updates_app (us vs : list U) (s : S) :
  fold_updates mc (us ++ vs) s =
  rbind (fold_updates mc us s) (fold_updates mc vs).
Proof.
  revert s. induction us as [|u us IH]; intros s; [reflexivity|].
  simpl. destruct (mc_update s u) as [s'|e]; simpl; [apply IH|reflexivity].
Qed.

Lemma run_steps_draws (n : nat) :
  forall s0 s1 g a b g',
    run_steps mc n s0 s1 g = Ok (a, b, g') ->
    exists us,
      draw_steps mc n g = Ok (us, g') /\ length us = n /\
      fold_updates mc us s0 = Ok a /\ fold_updates mc us s1 = Ok b.
Proof.
  induction n as [|n IH]; intros s0 s1 g a b g'; simpl.
  - intros [= <- <- <-]. exists []. repeat split.
  - destruct (mc_new_random_update g) as [[u g1]|e]; simpl; [|discriminate].
    destruct (mc_update s0 u) as [s0'|e] eqn:E0; simpl; [|discriminate].
    destruct (mc_update s1 u) as [s1'|e] eqn:E1; simpl; [|discriminate].
    intros (us & Hd & Hl & H0 & H1)%IH.
    exists (u :: us). simpl. rewrite Hd, E0, E1, Hl. simpl.
    repeat split; assumption.
Qed.

Lemma replay_draws (updates : list (option G * Z)) :
  forall s0 s1 rn g a b rn' g',
    replay mc updates s0 s1 rn g = Ok (a, b, rn', g') ->
    exists us,
      draw_epochs mc updates = Ok us /\
      fold_updates mc us s0 = Ok a /\ fold_updates mc us s1 = Ok b.
Proof.
  induction updates as [|[rng steps] rest IH];
    intros s0 s1 rn g a b rn' g'; simpl.
  - intros [= <- <- _ _]. exists []. repeat split.
  - destruct (setstate rng) as [g1|e]; simpl; [|discriminate].
    destruct (run_steps mc (Z.to_nat steps) s0 s1 g1)
      as [[[m0 m1] g2]|e] eqn:Hrun; simpl; [|discriminate].
    apply run_steps_draws in Hrun as (us & Hd & _ & H0 & H1).
    intros (us' & Hd' & H0' & H1')%IH.
    exists (us ++ us'). rewrite Hd. simpl. rewrite Hd'. simpl.
    rewrite !fold_updates_app, H0, H1. repeat split; assumption.
Qed.

Lemma draw_steps_length (n : nat) :
  forall g us g', draw_steps mc n g = Ok (us, g') -> length us = n.
Proof.
  induction n as [|n IH]; intros g us g'; simpl.
  - now intros [= <- _].
  - destruct (mc_new_random_update g) as [[u g1]|e]; simpl; [|discriminate].
    destruct (draw_steps mc n g1) as [[vs g2]|e] eqn:E; simpl; [|discriminate].
    intros [= <- _]. simpl. f_equal. eapply IH. eassumption.
Qed.

Lemma draw_epochs_length (updates : list (option G * Z)) :
  forall us, draw_epochs mc updates = Ok us ->
    Forall (fun e => 0 <= snd e) updates ->
    Z.of_nat (length us) = total_steps updates.
Proof.
  induction updates as [|[rng steps] rest IH]; intros us; simpl.
  - now intros [= <-].
  - destruct (setstate rng) as [g1|e]; simpl; [|discriminate].
    destruct (draw_steps mc (Z.to_nat steps) g1) as [[vs g2]|e] eqn:E;
      simpl; [|discriminate].
    destruct (draw_epochs mc rest) as [ws|e]; simpl; [|discriminate].
    intros [= <-] Hpos. inversion Hpos as [|? ? Hs Hrest]; subst.
    apply draw_steps_length in E. simpl in Hs.
    rewrite length_app, Nat2Z.inj_add, E, (IH ws eq_refl Hrest).
    unfold total_steps. simpl. lia.
Qed.

(** The round that looks further back re-applies the updates of the
    round before it.  If a round on [updates] failed to couple and the
    next round runs to its end, then the next round applied, to both
    states, the updates of the new first entry followed by exactly the
    sequence the failed round had applied; after [n] earlier failed
    rounds the new part has [2^(n+1)] updates and the old one
    [2^(n+1) - 1]. *)
Theorem lookback_replays_updates (g0 : G) (n : nat)
        (updates updates' : list (option G * Z)) (g g' g2 : G)
        (rn rn2 : option G) (e2 : round_end) :
  after_rounds mc g0 n updates g ->
  cftp_round mc updates g = Ok (LookBack updates', rn, g') ->
  cftp_round mc updates' g' = Ok (e2, rn2, g2) ->
  exists old new x0 x1 y0 y1,
    draw_epochs mc updates = Ok old /\
    draw_epochs mc updates' = Ok (new ++ old) /\
    Z.of_nat (length new) = 2 ^ (Z.of_nat n + 1) /\
    Z.of_nat (length old) = 2 ^ (Z.of_nat n + 1) - 1 /\
    fold_updates mc old (fst mc_min_max_states) = Ok x0 /\
    fold_updates mc old (snd mc_min_max_states) = Ok x1 /\
    mc_eq x0 x1 = false /\
    fold_updates mc (new ++ old) (fst mc_min_max_states) = Ok y0 /\
    fold_updates mc (new ++ old) (snd mc_min_max_states) = Ok y1 /\
    e2 = (if mc_eq y0 y1 then Coupled y0
          else LookBack ((rn2, 2 ^ Z.of_nat (length updates')) :: updates')).
Proof.
  intros Hn Hr1 Hr2.
  pose proof (after_rounds_steps mc g0 n updates g Hn) as Hsteps.
  pose proof (cftp_round_lookback mc _ _ _ _ _ Hr1) as Hup.
  pose proof (f_equal (@length Z) Hsteps) as Hlen.
  rewrite length_map, length_powers_desc in Hlen.
  assert (Hpos : Forall (fun e : option G * Z => 0 <= snd e) updates).
  { apply Forall_forall. intros e He.
    assert (Hin : snd e ∈ powers_desc (Datatypes.S n)).
    { rewrite <- Hsteps. now apply list_elem_of_fmap_2. }
    clear -Hin. induction (Datatypes.S n) as [|m IH]; simpl in Hin.
    - now apply elem_of_nil in Hin.
    - apply elem_of_cons in Hin as [->|Hin]; [|auto].
      apply Z.pow_nonneg. lia. }
  unfold cftp_round in Hr1, Hr2.
  destruct mc_min_max_states as [s0 s1]. simpl fst. simpl snd.
  destruct (replay mc updates s0 s1 None g)
    as [[[[x0 x1] r1] h1]|e] eqn:Hrep1; simpl in Hr1; [|discriminate].
  destruct (mc_eq x0 x1) eqn:Hne; [discriminate|].
  destruct (replay mc updates' s0 s1 None g')
    as [[[[y0 y1] r2] h2]|e] eqn:Hrep2; simpl in Hr2; [|discriminate].
  apply replay_draws in Hrep1 as (old & Hold & Hx0 & Hx1).
  apply replay_draws in Hrep2 as (all & Hall & Hy0 & Hy1).
  pose proof (draw_epochs_length updates old Hold Hpos) as Lold.
  subst updates'. simpl in Hall.
  destruct (setstate rn) as [gn|e] eqn:Hset; simpl in Hall; [|discriminate].
  destruct (draw_steps mc (Z.to_nat (2 ^ Z.of_nat (length updates))) gn)
    as [[new gnew]|e] eqn:Hnew; simpl in Hall; [|discriminate].
  rewrite Hold in Hall. simpl in Hall. injection Hall as <-.
  pose proof (draw_steps_length _ _ _ _ Hnew) as Lnew.
  exists old, new, x0, x1, y0, y1.
  repeat split; try assumption.
  - simpl. rewrite Hset. simpl. rewrite Hnew. simpl. now rewrite Hold.
  - rewrite Lnew, Z2Nat.id by (apply Z.pow_nonneg; lia).
    rewrite Hlen. f_equal. lia.
  - rewrite Lold. unfold total_steps. rewrite Hsteps, total_powers_desc.
    f_equal. f_equal. lia.
  - destruct (mc_eq y0 y1); now injection Hr2 as <- <- _.
Qed.

End DrawFacts.

Lemma lookback_replays_updates_witness :
  exists old new x0 x1 y0 y1,
    draw_epochs hexagon_222 [(Some 0, 1)] = Ok old /\
    draw_epochs hexagon_222 [(Some 654583775, 2); (Some 0, 1)]
    = Ok (new ++ old) /\
    Z.of_nat (length new) = 2 ^ (Z.of_nat 0 + 1) /\
    Z.of_nat (length old) = 2 ^ (Z.of_nat 0 + 1) - 1 /\
    fold_updates hexagon_222 old (fst (@mc_min_max_states _ _ _ hexagon_222))
    = Ok x0 /\
    fold_updates hexagon_222 old (snd (@mc_min_max_states _ _ _ hexagon_222))
    = Ok x1 /\
    @mc_eq _ _ _ hexagon_222 x0 x1 = false /\
    fold_updates hexagon_222 (new ++ old)
                 (fst (@mc_min_max_states _ _ _ hexagon_222)) = Ok y0 /\
    fold_updates hexagon_222 (new ++ old)
                 (snd (@mc_min_max_states _ _ _ hexagon_222)) = Ok y1 /\
    LookBack [(Some 794471793, 4); (Some 654583775, 2); (Some 0, 1)] =
    (if @mc_eq _ _ _ hexagon_222 y0 y1 then Coupled y0
     else LookBack
            ((Some 794471793,
              2 ^ Z.of_nat (length [(Some 654583775, 2); (Some 0, 1)]))
             :: [(Some 654583775, 2); (Some 0, 1)])).
Proof.
  apply (lookback_replays_updates hexagon_222 0 0 [(Some 0, 1)]
           [(Some 654583775, 2); (Some 0, 1)] 0 654583775 654583775
           (Some 654583775) (Some 794471793)).
  - apply after_0.
  - vm_compute. reflexivity.
  - vm_compute. reflexivity.
Defined.

(** ** The driver on the lozenge chain *)

Lemma list_eqb_eq {A} (eqb : A -> A -> bool) :
  (forall x y, eqb x y = true <-> x = y) ->
  forall l1 l2, list_eqb eqb l1 l2 = true <-> l1 = l2.
Proof.
  intros Heq. induction l1 as [|x l1 IH]; intros [|y l2]; simpl;
    try (split; [discriminate|congruence]); [tauto|].
  rewrite andb_true_iff, Heq, IH. split; [intros [-> ->]|intros [= -> ->]];
    auto.
Qed.

Lemma state_eqb_eq (s t : state) : state_eqb s t = true <-> s = t.
Proof.
  apply list_eqb_eq. intros r1 r2. apply list_eqb_eq. apply Z.eqb_eq.
Qed.

Lemma lcg_in_range : randint_in_range Z.
Proof.
  intros lo hi g Hle. simpl.
  destruct (Z.ltb_spec hi lo); [lia|].
  eexists _, _. split; [reflexivity|].
  pose proof (Z.mod_pos_bound (lcg_next g / 65536) (hi - lo + 1) ltac:(lia)).
  lia.
Qed.

Lemma lcg_empty_raises : randint_empty_raises Z.
Proof.
  intros lo hi g Hlt. simpl. destruct (Z.ltb_spec hi lo); [reflexivity|lia].
Qed.

Section LozengeDriver.
Context {G : Type} `{RandomSource G}.
Variables a b c : Z.
Hypothesis Hrand : randint_in_range G.
Hypothesis Ha : 1 <= a.
Hypothesis Hb : 1 <= b.
Hypothesis Hc : 1 <= c.

Local Abbreviation chain := (LozengeTiling_chain (mkLozengeTiling (a, b, c))).

Lemma new_random_update_ok (g : G) :
  exists u g',
    new_random_update (mkLozengeTiling (a, b, c)) g = Ok (u, g') /\
    in_hexagon a b c u.
Proof.
  unfold new_random_update. simpl.
  destruct (Hrand 1 c g Hc) as (k & g1 & -> & Hk). simpl.
  destruct (Hrand 1 (a + b - 1) g1 ltac:(lia)) as (j & g2 & -> & Hj). simpl.
  destruct (Hrand 0 1 g2 ltac:(lia)) as (dy & g3 & -> & Hdy). simpl.
  exists (k, j, dy), g3. split; [reflexivity|]. split; assumption.
Qed.

Lemma fold_updates_apply (us : list upd) (s : state) :
  fold_updates chain us s = apply_updates us s.
Proof.
  revert s. induction us as [|u us IH]; intros s; [reflexivity|].
  simpl. destruct (update_result s u); simpl; [apply IH|reflexivity].
Qed.

Lemma draw_steps_in_hexagon (n : nat) :
  forall g us g', draw_steps chain n g = Ok (us, g') ->
    Forall (in_hexagon a b c) us.
Proof.
  induction n as [|n IH]; intros g us g'; simpl.
  - intros [= <- _]. constructor.
  - destruct (new_random_update_ok g) as (u & g1 & -> & Hu). simpl.
    destruct (draw_steps chain n g1) as [[vs g2]|e] eqn:E; simpl;
      [|discriminate].
    intros [= <- _]. constructor; [assumption|]. eapply IH. eassumption.
Qed.

Lemma draw_epochs_in_hexagon (updates : list (option G * Z)) :
  forall us, draw_epochs chain updates = Ok us ->
    Forall (in_hexagon a b c) us.
Proof.
  induction updates as [|[rng steps] rest IH]; intros us; simpl.
  - intros [= <-]. constructor.
  - destruct (setstate rng) as [g1|e]; simpl; [|discriminate].
    destruct (draw_steps chain (Z.to_nat steps) g1) as [[vs g2]|e] eqn:E;
      simpl; [|discriminate].
    destruct (draw_epochs chain rest) as [ws|e]; simpl; [|discriminate].
    intros [= <-]. apply Forall_app. split.
    + eapply draw_steps_in_hexagon. eassumption.
    + now apply IH.
Qed.

Lemma lozenge_run_steps (n : nat) :
  forall s0 s1 g,
    tiling_state a b c s0 = true -> tiling_state a b c s1 = true ->
    exists s0' s1' g',
      run_steps chain n s0 s1 g = Ok (s0', s1', g') /\
      tiling_state a b c s0' = true /\ tiling_state a b c s1' = true.
Proof.
  induction n as [|n IH]; intros s0 s1 g T0 T1; simpl.
  - exists s0, s1, g. auto.
  - destruct (new_random_update_ok g) as ([[k j] dy] & g1 & -> & Hk & Hj).
    simpl.
    pose proof (tiling_state_inv _ _ _ _ T0) as (I0 & _).
    pose proof (tiling_state_inv _ _ _ _ T1) as (I1 & _).
    rewrite (update_result_in_range a b c s0 k j dy
               (invariants_shape _ _ _ _ I0) Hk Hj). simpl.
    rewrite (update_result_in_range a b c s1 k j dy
               (invariants_shape _ _ _ _ I1) Hk Hj). simpl.
    apply IH.
    + apply (updated_tiling_state a b c s0 k j dy T0 Hk Hj).
    + apply (updated_tiling_state a b c s1 k j dy T1 Hk Hj).
Qed.

Lemma lozenge_replay (updates : list (option G * Z)) :
  Forall (fun e => fst e <> None) updates ->
  forall s0 s1 rn g,
    tiling_state a b c s0 = true -> tiling_state a b c s1 = true ->
    exists s0' s1' rn' g',
      replay chain updates s0 s1 rn g = Ok (s0', s1', rn', g') /\
      tiling_state a b c s0' = true /\ tiling_state a b c s1' = true /\
      (rn <> None \/ updates <> [] -> rn' <> None).
Proof.
  induction 1 as [|[rng steps] rest Hrng _ IH]; intros s0 s1 rn g T0 T1.
  - exists s0, s1, rn, g. simpl. repeat split; try assumption.
    intros [?|?]; congruence.
  - simpl in Hrng. destruct rng as [g1|]; [|congruence]. simpl.
    destruct (lozenge_run_steps (Z.to_nat steps) s0 s1 g1 T0 T1)
      as (m0 & m1 & g2 & -> & Tm0 & Tm1). simpl.
    destruct (IH m0 m1 (match rn with None => Some g2 | Some r => Some r end)
                 g2 Tm0 Tm1) as (x0 & x1 & rn' & g' & -> & Tx0 & Tx1 & Hrn).
    exists x0, x1, rn', g'. repeat split; try assumption.
    intros _. apply Hrn. left. destruct rn; discriminate.
Qed.

Lemma lozenge_cftp_loop (fuel : nat) :
  forall updates g,
    Forall (fun e => fst e <> None) updates -> updates <> [] ->
    cftp_loop chain fuel updates g = Ok None \/
    exists s g', cftp_loop chain fuel updates g = Ok (Some (s, g')) /\
                 tiling_state a b c s = true.
Proof.
  induction fuel as [|fuel IH]; intros updates g Hsome Hne; [now left|].
  destruct (min_max_tiling a b c Ha Hb Hc) as [T0 T1].
  simpl. unfold cftp_round. simpl.
  destruct (lozenge_replay updates Hsome _ _ None g T0 T1)
    as (x0 & x1 & rn & g' & Hrep & Tx0 & Tx1 & Hrn).
  simpl in Hrep. rewrite Hrep. simpl.
  destruct rn as [r|]; [|exfalso; apply Hrn; auto].
  destruct (state_eqb x0 x1); simpl.
  - right. exists x0, r. auto.
  - apply IH; [|discriminate].
    constructor; [simpl; discriminate|assumption].
Qed.

End LozengeDriver.

(** With a generator whose [randint] stays within its bounds, [run_cftp]
    on a hexagon with positive side lengths never raises: either the
    rounds allowed run out, or it returns a tiling state (an
    [IndexError] in [update] or a malformed path system cannot
    occur). *)
Theorem run_cftp_returns_tiling {G : Type} `{RandomSource G}
        (a b c : Z) (fuel : nat) (g : G) :
  randint_in_range G -> 1 <= a -> 1 <= b -> 1 <= c ->
  run_cftp (LozengeTiling_chain (mkLozengeTiling (a, b, c))) fuel g = Ok None
  \/
  exists s g',
    run_cftp (LozengeTiling_chain (mkLozengeTiling (a, b, c))) fuel g
    = Ok (Some (s, g')) /\
    tiling_state a b c s = true.
Proof.
  intros Hrand Ha Hb Hc. unfold run_cftp.
  apply lozenge_cftp_loop; try assumption; [|discriminate].
  constructor; [simpl; discriminate|constructor].
Qed.

Lemma run_cftp_returns_tiling_witness :
  run_cftp hexagon_222 12 0 = Ok None \/
  exists s g',
    run_cftp hexagon_222 12 0 = Ok (Some (s, g')) /\
    tiling_state 2 2 2 s = true.
Proof.
  apply (run_cftp_returns_tiling 2 2 2 12 0 lcg_in_range); lia.
Defined.

(** The certificate of coupling.  When a round of [run_cftp] on a
    hexagon with positive side lengths ends with the two states equal,
    the updates it applied take every tiling state, not only the two
    extremal ones, to that same state. *)
Theorem coupled_round_certificate {G : Type} `{RandomSource G}
        (a b c : Z) (updates : list (option G * Z)) (g g' : G)
        (rn : option G) (s : state) :
  randint_in_range G -> 1 <= a -> 1 <= b -> 1 <= c ->
  cftp_round (LozengeTiling_chain (mkLozengeTiling (a, b, c))) updates g
  = Ok (Coupled s, rn, g') ->
  exists us,
    draw_epochs (LozengeTiling_chain (mkLozengeTiling (a, b, c))) updates
    = Ok us /\
    Forall (in_hexagon a b c) us /\
    forall mid, tiling_state a b c mid = true -> apply_updates us mid = Ok s.
Proof.
  intros Hrand Ha Hb Hc Hround.
  unfold cftp_round in Hround. simpl in Hround.
  destruct (replay _ updates _ _ None g) as [[[[x0 x1] r] h]|e] eqn:Hrep;
    simpl in Hround; [|discriminate].
  destruct (state_eqb x0 x1) eqn:Heq; [|discriminate].
  apply state_eqb_eq in Heq. subst x1. injection Hround as -> _ _.
  apply replay_draws in Hrep as (us & Hdraw & H0 & H1).
  rewrite fold_updates_apply in H0, H1.
  pose proof (draw_epochs_in_hexagon a b c Hrand Ha Hb Hc updates us Hdraw)
    as Hus.
  exists us. split; [assumption|]. split; [assumption|].
  intros mid Tmid.
  destruct (min_max_tiling a b c Ha Hb Hc) as [T0 T1].
  destruct (tiling_between a b c mid Ha Hb Hc Tmid) as [L1 L2].
  destruct (updates_sandwich a b c us _ mid _ Hus T1 Tmid T0 L1 L2)
    as (lo' & mid' & hi' & Elo & Emid & Ehi & _ & _ & _ & Hsame).
  simpl in H0, H1, Elo, Ehi.
  rewrite H1 in Elo. rewrite H0 in Ehi.
  injection Elo as <-. injection Ehi as <-.
  now rewrite Emid, (Hsame eq_refl).
Qed.

Lemma coupled_round_certificate_witness :
  exists us,
    draw_epochs (LozengeTiling_chain (mkLozengeTiling (1, 1, 1)))
                [(Some 0, 1)] = Ok us /\
    Forall (in_hexagon 1 1 1) us /\
    forall mid, tiling_state 1 1 1 mid = true ->
      apply_updates us mid = Ok [[0; 0; 1]; [1; 1; 2]; [2; 3; 3]].
Proof.
  apply (coupled_round_certificate 1 1 1 [(Some 0, 1)] 0 654583775
           (Some 654583775) [[0; 0; 1]; [1; 1; 2]; [2; 3; 3]] lcg_in_range);
    try lia.
  vm_compute. reflexivity.
Defined.

(** A hexagon that leaves no path or no position to draw from is only
    found out at the first draw: with [c < 1] or [a + b < 2],
    [run_cftp] raises the [ValueError] of [random.randint] in its first
    round. *)
Theorem run_cftp_empty_range {G : Type} `{RandomSource G}
        (a b c : Z) (fuel : nat) (g : G) :
  randint_in_range G -> randint_empty_raises G ->
  c < 1 \/ a + b < 2 ->
  new_random_update (mkLozengeTiling (a, b, c)) g = Raise ValueError /\
  run_cftp (LozengeTiling_chain (mkLozengeTiling (a, b, c)))
           (Datatypes.S fuel) g = Raise ValueError.
Proof.
  intros Hrand Hempty Hsize.
  assert (Hnew : forall g0 : G,
            new_random_update (mkLozengeTiling (a, b, c)) g0
            = Raise ValueError).
  { intros g0. unfold new_random_update. simpl.
    destruct (Z_lt_le_dec c 1) as [Hc|Hc].
    - now rewrite (Hempty 1 c g0 ltac:(lia)).
    - destruct (Hrand 1 c g0 Hc) as (k & g1 & -> & _). simpl.
      now rewrite (Hempty 1 (a + b - 1) g1 ltac:(lia)). }
  split; [apply Hnew|].
  unfold run_cftp. simpl. unfold cftp_round. simpl.
  now rewrite Hnew.
Qed.

Lemma run_cftp_empty_range_witness :
  new_random_update (mkLozengeTiling (2, 2, 0)) 0 = Raise ValueError /\
  run_cftp (LozengeTiling_chain (mkLozengeTiling (2, 2, 0))) 1 0
  = Raise ValueError.
Proof.
  apply (run_cftp_empty_range 2 2 0 0 0 lcg_in_range lcg_empty_raises).
  left. lia.
Defined.

(** ** Counting the lozenges *)

Lemma range2_snoc (lo hi : Z) :
  lo <= hi -> range2 lo (hi + 1) = range2 lo hi ++ [hi].
Proof.
  intros H. unfold range2.
  replace (hi + 1 - lo) with ((hi - lo) + 1) by lia.
  rewrite seqZ_app by lia. f_equal.
  replace (lo + (hi - lo)) with hi by lia. reflexivity.
Qed.

Lemma sumZ_app (l1 l2 : list Z) : sumZ (l1 ++ l2) = sumZ l1 + sumZ l2.
Proof.
  unfold sumZ. induction l1 as [|x l1 IH]; simpl; lia.
Qed.

Lemma flat_map_length_const {A B} (g : A -> list B) (ks : list A) (m : nat) :
  (forall k, In k ks -> length (g k) = m) ->
  length (flat_map g ks) = (length ks * m)%nat.
Proof.
  induction ks as [|k ks IH]; intros Hg; [reflexivity|].
  simpl. rewrite length_app, Hg by now left.
  rewrite IH by (intros; apply Hg; now right). reflexivity.
Qed.

Section Counting.
Variables a b c : Z.
Variable s : state.
Hypothesis Ha : 0 <= a.
Hypothesis Hb : 0 <= b.
Hypothesis Hc : 0 <= c.
Hypothesis Htiling : tiling_state a b c s = true.

(** Along a path the right lozenges count the unit steps up. *)
Lemma cell_R_row_count (k : Z) :
  1 <= k <= c ->
  forall n : nat, Z.of_nat n <= a + b ->
    Z.of_nat (length (flat_map (cell_R s k) (range2 1 (Z.of_nat n + 1))))
    = hgt s k (Z.of_nat n) - hgt s k 0.
Proof.
  intros Hk.
  pose proof (proj1 (tiling_state_inv _ _ _ _ Htiling)) as Hinv.
  pose proof (invariants_shape _ _ _ _ Hinv) as Hshape.
  pose proof (proj1 (invariants_spec a b c s Hshape) Hinv) as [Hpm _].
  induction n as [|n IH]; intros Hn.
  - change (range2 1 (Z.of_nat 0 + 1)) with (@nil Z).
    change (Z.of_nat 0) with 0. simpl. lia.
  - rewrite Nat2Z.inj_succ. unfold Z.succ.
    rewrite range2_snoc by lia.
    rewrite flat_map_app, length_app, Nat2Z.inj_add, IH by lia.
    simpl. rewrite app_nil_r. unfold cell_R.
    replace (Z.of_nat n + 1 - 1) with (Z.of_nat n) by lia.
    pose proof (Hpm k (Z.of_nat n) ltac:(lia) ltac:(lia)) as P.
    destruct (Z.ltb_spec 0 k); [|lia].
    destruct (Z.eqb_spec (hgt s k (Z.of_nat n + 1)) (hgt s k (Z.of_nat n)));
      simpl; lia.
Qed.

(** In the gap above path [k] the top lozenges count the free levels. *)
Lemma cell_T_row_count (k : Z) (js : list Z) :
  0 <= k <= c -> Forall (fun j => 0 <= j <= a + b) js ->
  Z.of_nat (length (flat_map (cell_T s k) js))
  = sumZ (map (hgt s (k + 1)) js) - sumZ (map (hgt s k) js)
    - Z.of_nat (length js).
Proof.
  intros Hk.
  pose proof (tiling_state_inv _ _ _ _ Htiling) as (Hinv & Hstrict & _).
  pose proof (invariants_shape _ _ _ _ Hinv) as Hshape.
  pose proof (proj1 (strict_non_crossing_spec a b c s Hshape) Hstrict) as Hsn.
  induction 1 as [|j js Hj _ IH]; [reflexivity|].
  cbn [flat_map map length]. rewrite length_app, Nat2Z.inj_add, IH.
  unfold cell_T at 1. rewrite length_map, length_range2.
  pose proof (Hsn k j Hk Hj). unfold sumZ. simpl. lia.
Qed.

Lemma cell_T_rows_count (js : list Z) :
  Forall (fun j => 0 <= j <= a + b) js ->
  forall n : nat, Z.of_nat n <= c + 1 ->
    Z.of_nat (length (flat_map (fun k => flat_map (cell_T s k) js)
                               (range (Z.of_nat n))))
    = sumZ (map (hgt s (Z.of_nat n)) js) - sumZ (map (hgt s 0) js)
      - Z.of_nat n * Z.of_nat (length js).
Proof.
  intros Hjs. induction n as [|n IH]; intros Hn.
  - change (range (Z.of_nat 0)) with (@nil Z).
    change (Z.of_nat 0) with 0. simpl. lia.
  - unfold range in *. rewrite seqZ_S.
    rewrite flat_map_app, length_app, Nat2Z.inj_add, IH by lia.
    cbn [flat_map]. rewrite app_nil_r.
    change (0 + Z.of_nat n) with (Z.of_nat n).
    rewrite (cell_T_row_count (Z.of_nat n) js ltac:(lia) Hjs).
    replace (Z.of_nat n + 1) with (Z.of_nat (Datatypes.S n)) by lia.
    lia.
Qed.

End Counting.

Lemma sum_min_closed (b : Z) (n : nat) :
  0 <= b ->
  2 * sumZ (map (fun j => Z.min j b) (range2 1 (Z.of_nat n + 1)))
  = Z.min (Z.of_nat n) b * (Z.min (Z.of_nat n) b + 1)
    + 2 * b * (Z.of_nat n - Z.min (Z.of_nat n) b).
Proof.
  intros Hb. induction n as [|n IH]; [simpl; lia|].
  rewrite Nat2Z.inj_succ. unfold Z.succ.
  rewrite range2_snoc by lia.
  rewrite map_app, sumZ_app, Z.mul_add_distr_l, IH.
  unfold sumZ. simpl.
  destruct (Z.min_spec (Z.of_nat n) b) as [[? ->]|[? ->]];
    destruct (Z.min_spec (Z.of_nat n + 1) b) as [[? ->]|[? ->]]; nia.
Qed.

Lemma sum_max_closed (a : Z) (n : nat) :
  0 <= a ->
  2 * sumZ (map (fun j => Z.max (j - a) 0) (range2 1 (Z.of_nat n + 1)))
  = Z.max (Z.of_nat n - a) 0 * (Z.max (Z.of_nat n - a) 0 + 1).
Proof.
  intros Ha. induction n as [|n IH]; [simpl; lia|].
  rewrite Nat2Z.inj_succ. unfold Z.succ.
  rewrite range2_snoc by lia.
  rewrite map_app, sumZ_app, Z.mul_add_distr_l, IH.
  unfold sumZ. simpl.
  destruct (Z.max_spec (Z.of_nat n - a) 0) as [[? ->]|[? ->]];
    destruct (Z.max_spec (Z.of_nat n + 1 - a) 0) as [[? ->]|[? ->]]; nia.
Qed.

Lemma sumZ_map_ext (f g : Z -> Z) (js : list Z) :
  (forall j, In j js -> f j = g j) ->
  sumZ (map f js) = sumZ (map g js).
Proof.
  intros H. f_equal. apply map_ext_in. assumption.
Qed.

Lemma sumZ_map_shift (f : Z -> Z) (d : Z) (js : list Z) :
  sumZ (map (fun j => d + f j) js)
  = d * Z.of_nat (length js) + sumZ (map f js).
Proof.
  unfold sumZ. induction js as [|j js IH]; simpl; [lia|].
  rewrite IH. lia.
Qed.

Lemma cell_LR_zero (s : state) (js : list Z) :
  flat_map (cell_L s 0) js = [] /\ flat_map (cell_R s 0) js = [].
Proof.
  induction js as [|j js [IHL IHR]]; [split; reflexivity|].
  simpl. rewrite IHL, IHR. split; reflexivity.
Qed.

(** The tiling of a tiling state has [a * c] left, [b * c] right and
    [a * b] top lozenges. *)
Lemma tiles_counts (a b c : Z) (s : state) :
  0 <= a -> 0 <= b -> 0 <= c ->
  tiling_state a b c s = true ->
  exists verts,
    get_tiles (mkLozengeTiling (a, b, c)) s = Ok verts /\
    Z.of_nat (length (verts_L verts)) = a * c /\
    Z.of_nat (length (verts_R verts)) = b * c /\
    Z.of_nat (length (verts_T verts)) = a * b.
Proof.
  intros Ha Hb Hc Ht.
  pose proof (tiling_state_inv _ _ _ _ Ht) as (Hinv & _ & Hbound).
  pose proof (invariants_shape _ _ _ _ Hinv) as Hs.
  pose proof (proj1 (boundary_ok_spec a b c s Hs ltac:(lia) ltac:(lia))
                Hbound) as [Hb1 Hb2].
  eexists. split; [apply (get_tiles_flat_map a b c s Hs)|]. simpl.
  set (js := range2 1 (a + b + 1)).
  assert (Hjs : js = range2 1 (Z.of_nat (Z.to_nat (a + b)) + 1)).
  { unfold js. now rewrite Z2Nat.id by lia. }
  assert (Ljs : length js = Z.to_nat (a + b)).
  { unfold js. rewrite length_range2. f_equal. lia. }
  assert (Hks : range (c + 1) = 0 :: range2 1 (c + 1)).
  { unfold range, range2. rewrite seqZ_cons by lia. now f_equal. }
  assert (HR : forall k, In k (range2 1 (c + 1)) ->
            length (flat_map (cell_R s k) js) = Z.to_nat b).
  { intros k Hk%range2_In.
    pose proof (cell_R_row_count a b c s Ht k ltac:(lia)
                  (Z.to_nat (a + b)) ltac:(lia)) as E.
    rewrite <- Hjs, Z2Nat.id in E by lia.
    destruct (Hb1 k ltac:(lia)) as [E0 E1]. lia. }
  assert (HL : forall k, In k (range2 1 (c + 1)) ->
            length (flat_map (cell_L s k) js) = Z.to_nat a).
  { intros k Hk. pose proof (cell_LR_length s k js) as E.
    rewrite (HR k Hk) in E. apply range2_In in Hk.
    destruct (Z.ltb_spec 0 k); lia. }
  destruct (cell_LR_zero s js) as [ZL ZR].
  split; [|split].
  - rewrite Hks. cbn [flat_map]. rewrite ZL. simpl.
    rewrite (flat_map_length_const _ _ _ HL), length_range2. nia.
  - rewrite Hks. cbn [flat_map]. rewrite ZR. simpl.
    rewrite (flat_map_length_const _ _ _ HR), length_range2. nia.
  - assert (Fjs : Forall (fun j => 0 <= j <= a + b) js).
    { apply List.Forall_forall. intros j Hj%range2_In. lia. }
    pose proof (cell_T_rows_count a b c s Ht js Fjs (Z.to_nat (c + 1))
                  ltac:(lia)) as E.
    rewrite Z2Nat.id in E by lia. rewrite E.
    rewrite (sumZ_map_ext (hgt s (c + 1)) (fun j => (c + 1) + Z.min j b))
      by (intros j Hj%range2_In; apply Hb2; lia).
    rewrite (sumZ_map_ext (hgt s 0) (fun j => Z.max (j - a) 0))
      by (intros j Hj%range2_In; apply Hb2; lia).
    rewrite sumZ_map_shift, Ljs.
    pose proof (sum_min_closed b (Z.to_nat (a + b)) Hb) as Emin.
    pose proof (sum_max_closed a (Z.to_nat (a + b)) Ha) as Emax.
    rewrite <- Hjs in Emin, Emax.
    rewrite Z2Nat.id in Emin, Emax by lia.
    rewrite Z.min_r in Emin by lia.
    replace (a + b - a) with b in Emax by lia.
    rewrite Z.max_l in Emax by lia.
    rewrite Z2Nat.id by lia. nia.
Qed.

(** For every tiling state of the hexagon, [get_tiles] returns exactly
    [a * c] left lozenges, [b * c] right lozenges and [a * b] top
    lozenges, [a*b + b*c + c*a] in all. *)
Theorem get_tiles_counts (a b c : Z) (s : state) :
  0 <= a -> 0 <= b -> 0 <= c ->
  tiling_state a b c s = true ->
  exists verts,
    get_tiles (mkLozengeTiling (a, b, c)) s = Ok verts /\
    Z.of_nat (length (verts_L verts)) = a * c /\
    Z.of_nat (length (verts_R verts)) = b * c /\
    Z.of_nat (length (verts_T verts)) = a * b.
Proof.
  apply tiles_counts.
Qed.

Lemma get_tiles_counts_witness :
  exists verts,
    get_tiles (mkLozengeTiling (2, 1, 1))
              [[0; 0; 0; 1]; [1; 1; 2; 2]; [2; 3; 3; 3]] = Ok verts /\
    Z.of_nat (length (verts_L verts)) = 2 * 1 /\
    Z.of_nat (length (verts_R verts)) = 1 * 1 /\
    Z.of_nat (length (verts_T verts)) = 2 * 1.
Proof.
  apply (get_tiles_counts 2 1 1); [lia|lia|lia|reflexivity].
Defined.

(** Whatever [run_cftp] returns on a hexagon with positive side lengths
    is drawn by [get_tiles] as [a * c] left, [b * c] right and [a * b]
    top lozenges. *)
Theorem run_cftp_tiles_counts {G : Type} `{RandomSource G}
        (a b c : Z) (fuel : nat) (g g' : G) (s : state) :
  randint_in_range G -> 1 <= a -> 1 <= b -> 1 <= c ->
  run_cftp (LozengeTiling_chain (mkLozengeTiling (a, b, c))) fuel g
  = Ok (Some (s, g')) ->
  exists verts,
    get_tiles (mkLozengeTiling (a, b, c)) s = Ok verts /\
    Z.of_nat (length (verts_L verts)) = a * c /\
    Z.of_nat (length (verts_R verts)) = b * c /\
    Z.of_nat (length (verts_T verts)) = a * b.
Proof.
  intros Hrand Ha Hb Hc Hrun.
  apply tiles_counts; try lia.
  unfold run_cftp in Hrun.
  destruct (lozenge_cftp_loop a b c Hrand Ha Hb Hc fuel [(Some g, 1)] g)
    as [Hnone|(s' & g'' & Hsome & Ht)].
  - constructor; [simpl; discriminate|constructor].
  - discriminate.
  - congruence.
  - congruence.
Qed.

Lemma run_cftp_tiles_counts_witness :
  exists verts,
    get_tiles (mkLozengeTiling (1, 1, 1)) [[0; 0; 1]; [1; 1; 2]; [2; 3; 3]]
    = Ok verts /\
    Z.of_nat (length (verts_L verts)) = 1 * 1 /\
    Z.of_nat (length (verts_R verts)) = 1 * 1 /\
    Z.of_nat (length (verts_T verts)) = 1 * 1.
Proof.
  apply (run_cftp_tiles_counts 1 1 1 1 0 654583775
           [[0; 0; 1]; [1; 1; 2]; [2; 3; 3]] lcg_in_range); try lia.
  reflexivity.
Defined.

(** * The traversal of the modular group *)

Module ModularGroupFacts.
Import Stdlib.Strings.String.
Import ModularGroup.

Lemma string_length_append (u v : string) :
  String.length (u ++ v) = (String.length u + String.length v)%nat.
Proof.
  induction u as [|ch u IH]; simpl; [reflexivity|]. now rewrite IH.
Qed.

Lemma string_append_assoc (u v w : string) :
  ((u ++ v) ++ w)%string = (u ++ (v ++ w))%string.
Proof.
  induction u as [|ch u IH]; simpl; [reflexivity|]. now rewrite IH.
Qed.

Lemma string_append_nil_r (u : string) : (u ++ "")%string = u.
Proof.
  induction u as [|ch u IH]; simpl; [reflexivity|]. now rewrite IH.
Qed.

Lemma state_cases (st : Z) :
  0 <= st <= 9 ->
  st = 0 \/ st = 1 \/ st = 2 \/ st = 3 \/ st = 4 \/ st = 5 \/ st = 6 \/
  st = 7 \/ st = 8 \/ st = 9.
Proof. lia. Qed.

Ltac each_state H :=
  apply state_cases in H;
  repeat (destruct H as [H|H]); subst.

(** Every state of the automaton has a row; its symbols are among A, B,
    C and its targets are states again. *)
Lemma row_of_state (st : Z) :
  0 <= st <= 9 ->
  exists row,
    dict_get Z.eqb AUTOMATON st = Found row /\
    Forall symbol_ok row /\ Forall (fun p => 0 <= snd p <= 9) row.
Proof.
  intros H. each_state H.
  all: eexists.
  all: split; [reflexivity|].
  all: split.
  all: repeat (apply List.Forall_cons || apply List.Forall_nil).
  all: unfold symbol_ok; simpl; auto; try lia.
Qed.

Section Facts.
Variable Cx : Type.
Variables add1 sub1 neg_inv : Cx -> Cx.
Variable zero : Cx.
Variable is_zero : Cx -> bool.

Local Abbreviation item := (string * Z * list (option Cx))%type.
Local Abbreviation transform' := (transform Cx add1 sub1 neg_inv zero is_zero).
Local Abbreviation gen' := (gen Cx add1 sub1 neg_inv zero is_zero).
Local Abbreviation kids' := (kids Cx add1 sub1 neg_inv zero is_zero).
Local Abbreviation levels' := (levels Cx add1 sub1 neg_inv zero is_zero).
Local Abbreviation loop' := (traverse_loop Cx add1 sub1 neg_inv zero is_zero).
Local Abbreviation valid_item := (ModularGroup.valid_item Cx).
Local Abbreviation depth_ok := (ModularGroup.depth_ok Cx).
Local Abbreviation sound :=
  (ModularGroup.sound Cx add1 sub1 neg_inv zero is_zero).
Local Abbreviation word_of := (fun x : item => fst (fst x)).
Local Abbreviation apply_word' :=
  (apply_word Cx add1 sub1 neg_inv zero is_zero).

Lemma transform_symbol (p : string * Z) (d : list (option Cx)) :
  symbol_ok p -> transform' (fst p) d = Found (map (gen' (fst p)) d).
Proof.
  intros [E|[E|E]]; rewrite E; reflexivity.
Qed.

Lemma push_children_ok (w : string) (d : list (option Cx))
      (row : list (string * Z)) :
  Forall symbol_ok row ->
  forall q : list item,
    push_children Cx add1 sub1 neg_inv zero is_zero w d row q =
    Found (q ++ map (fun p => ((w ++ fst p)%string, snd p,
                               map (gen' (fst p)) d)) row).
Proof.
  induction 1 as [|[sym to] row Hsym _ IH]; intros q.
  - simpl. now rewrite app_nil_r.
  - cbn [push_children map fst snd].
    pose proof (transform_symbol (sym, to) d Hsym) as E.
    cbn [fst] in E. rewrite E, IH, <- app_assoc. reflexivity.
Qed.

(** One turn of the loop: the item is yielded and its children join the
    end of the queue. *)
Lemma loop_step (fuel : nat) (len : Z) (x : item) (q : list item) :
  valid_item x ->
  loop' (S fuel) len (x :: q) =
  let '(ys, e) := loop' fuel len (q ++ kids' len x) in (x :: ys, e).
Proof.
  destruct x as [[w st] d]. unfold valid_item. simpl fst. simpl snd.
  intros Hst.
  destruct (row_of_state st Hst) as (row & Hrow & Hsyms & _).
  cbn [traverse_loop kids]. rewrite Hrow.
  destruct (Z.of_nat (String.length w) <? len).
  - now rewrite (push_children_ok w d row Hsyms).
  - now rewrite app_nil_r.
Qed.

(** The queue is served first in, first out: a run on [l ++ cs] yields
    all of [l] and goes on with [cs] followed by the children of [l]. *)
Lemma loop_app (len : Z) (l : list item) :
  Forall valid_item l ->
  forall (cs : list item) (fuel : nat),
    loop' (List.length l + fuel) len (l ++ cs) =
    let '(ys, e) := loop' fuel len (cs ++ flat_map (kids' len) l) in
    (l ++ ys, e).
Proof.
  induction 1 as [|x l Hx _ IH]; intros cs fuel.
  - cbn [List.length flat_map app Nat.add]. rewrite app_nil_r.
    now destruct (loop' fuel len cs).
  - cbn [List.length flat_map app Nat.add].
    rewrite (loop_step _ len x _ Hx), <- app_assoc, IH, <- app_assoc.
    now destruct (loop' fuel len _).
Qed.

Lemma loop_more_fuel (len : Z) (fuel : nat) :
  forall q ys, loop' fuel len q = (ys, Finished) ->
    forall fuel', (fuel <= fuel')%nat -> loop' fuel' len q = (ys, Finished).
Proof.
  induction fuel as [|fuel IH]; intros q ys Hrun fuel' Hle.
  - destruct q as [|[[w st] d] q]; [|discriminate].
    injection Hrun as <-. now destruct fuel'.
  - destruct fuel' as [|fuel']; [lia|].
    destruct q as [|[[w st] d] q]; [assumption|].
    cbn [traverse_loop] in *.
    destruct (Z.of_nat (String.length w) <? len).
    + destruct (dict_get Z.eqb AUTOMATON st) as [row|]; [|discriminate].
      destruct (push_children _ _ _ _ _ _ w d row q) as [q'|]; [|discriminate].
      destruct (loop' fuel len q') as [zs e] eqn:E.
      injection Hrun as <- ->.
      now rewrite (IH q' zs E fuel' ltac:(lia)).
    + destruct (loop' fuel len q) as [zs e] eqn:E.
      injection Hrun as <- ->.
      now rewrite (IH q zs E fuel' ltac:(lia)).
Qed.

Lemma kids_depth (len : Z) (i : nat) (x : item) :
  depth_ok i x -> Forall (depth_ok (S i)) (kids' len x).
Proof.
  destruct x as [[w st] d]. intros [Hw Hst]. simpl in Hw, Hst.
  unfold kids. destruct (Z.of_nat (String.length w) <? len); [|constructor].
  destruct (row_of_state st Hst) as (row & -> & Hsyms & Hto).
  apply List.Forall_forall. intros y Hy.
  apply in_map_iff in Hy as (p & <- & Hp).
  pose proof (proj1 (List.Forall_forall _ _) Hsyms p Hp) as Hs.
  pose proof (proj1 (List.Forall_forall _ _) Hto p Hp) as Ht.
  split; simpl; [|assumption].
  rewrite string_length_append, Hw.
  destruct Hs as [E|[E|E]]; rewrite E; simpl; lia.
Qed.

Lemma kids_level_depth (len : Z) (i : nat) (q : list item) :
  Forall (depth_ok i) q -> Forall (depth_ok (S i)) (flat_map (kids' len) q).
Proof.
  induction 1 as [|x q Hx _ IH]; simpl; [constructor|].
  apply Forall_app. split; [now apply kids_depth|assumption].
Qed.

Lemma kids_deep (len : Z) (i : nat) (q : list item) :
  Forall (depth_ok i) q -> len <= Z.of_nat i ->
  flat_map (kids' len) q = [].
Proof.
  induction 1 as [|[[w st] d] q [Hw _] _ IH]; intros Hlen; [reflexivity|].
  simpl in Hw. cbn [flat_map kids]. rewrite IH by assumption.
  destruct (Z.ltb_spec (Z.of_nat (String.length w)) len); [lia|reflexivity].
Qed.

Lemma depth_valid (i : nat) (q : list item) :
  Forall (depth_ok i) q -> Forall valid_item q.
Proof.
  intros Hq. eapply Forall_impl; [exact Hq|].
  intros x [_ Hx]. exact Hx.
Qed.

Lemma loop_levels (len : Z) (m : nat) :
  forall (i : nat) (q : list item),
    Forall (depth_ok i) q -> len <= Z.of_nat (i + m) ->
    loop' (List.length (levels' (S m) len q)) len q
    = (levels' (S m) len q, Finished).
Proof.
  induction m as [|m IH]; intros i q Hq Hlen.
  - cbn [levels]. rewrite app_nil_r.
    pose proof (loop_app len q (depth_valid i q Hq) [] 0%nat) as E.
    rewrite app_nil_r, Nat.add_0_r in E. rewrite E.
    rewrite (kids_deep len i q Hq) by lia. simpl. now rewrite app_nil_r.
  - change (levels' (S (S m)) len q)
      with (q ++ levels' (S m) len (flat_map (kids' len) q)).
    rewrite length_app.
    pose proof (loop_app len q (depth_valid i q Hq) []
                  (List.length (levels' (S m) len (flat_map (kids' len) q))))
      as E.
    rewrite app_nil_r in E. rewrite E. simpl app.
    rewrite (IH (S i) _ (kids_level_depth len i q Hq)) by lia.
    reflexivity.
Qed.

(** [traverse] ends, and yields the tree of the automaton level by
    level: the empty word in state 0 with the start domain, then the
    children of each level in the order of their parents, down to words
    of [length] symbols.  Any fuel from the number of items on is
    enough. *)
Theorem traverse_level_order (len : Z) (start_domain : list (option Cx))
        (fuel : nat) :
  let out := levels' (S (Z.to_nat len)) len [(""%string, 0, start_domain)] in
  (List.length out <= fuel)%nat ->
  traverse Cx add1 sub1 neg_inv zero is_zero fuel len start_domain
  = (out, Finished).
Proof.
  intros out Hfuel. unfold traverse.
  apply (loop_more_fuel len (List.length out)); [|assumption].
  apply (loop_levels len (Z.to_nat len) 0%nat).
  - constructor; [|constructor]. split; simpl; [reflexivity|lia].
  - lia.
Qed.

(** *** What is yielded *)

Lemma run_app (u v : string) :
  forall st, run st (u ++ v) =
             match run st u with
             | Some s1 => run s1 v
             | None => None
             end.
Proof.
  induction u as [|ch u IH]; intros st; simpl; [reflexivity|].
  destruct (step st (String ch "")); [apply IH|reflexivity].
Qed.

Lemma apply_word_app (u v : string) :
  forall d, apply_word' (u ++ v) d = apply_word' v (apply_word' u d).
Proof.
  induction u as [|ch u IH]; intros d; simpl; [reflexivity|]. apply IH.
Qed.

Lemma apply_word_length (w : string) :
  forall d, List.length (apply_word' w d) = List.length d.
Proof.
  induction w as [|ch w IH]; intros d; simpl; [reflexivity|].
  now rewrite IH, length_map.
Qed.

Lemma dict_get_state (st : Z) (row : list (string * Z)) :
  dict_get Z.eqb AUTOMATON st = Found row -> 0 <= st <= 9.
Proof.
  unfold AUTOMATON. cbn [dict_get].
  repeat match goal with
         | |- context [Z.eqb ?k st] => destruct (Z.eqb_spec k st); [lia|]
         end.
  discriminate.
Qed.

Lemma dict_get_In {V} (row : list (string * V)) (k : string) (v : V) :
  dict_get String.eqb row k = Found v -> In (k, v) row.
Proof.
  induction row as [|[k' v'] row IH]; simpl; [discriminate|].
  destruct (String.eqb_spec k' k) as [->|Hne].
  - intros [= ->]. now left.
  - intros H. right. now apply IH.
Qed.

Lemma step_in_row (st : Z) (row : list (string * Z)) (p : string * Z) :
  dict_get Z.eqb AUTOMATON st = Found row -> In p row ->
  step st (fst p) = Some (snd p).
Proof.
  intros Hrow Hp. pose proof (dict_get_state st row Hrow) as Hst.
  unfold step. rewrite Hrow. clear -Hrow Hp Hst.
  each_state Hst; injection Hrow as <-; simpl in Hp;
    repeat (destruct Hp as [<-|Hp]; [reflexivity|]); contradiction.
Qed.

Lemma step_valid (st to : Z) (sym : string) :
  step st sym = Some to -> 0 <= st <= 9 /\ 0 <= to <= 9.
Proof.
  unfold step. destruct (dict_get Z.eqb AUTOMATON st) as [row|] eqn:Hrow;
    [|discriminate].
  destruct (dict_get String.eqb row sym) as [to'|] eqn:Hsym; [|discriminate].
  intros [= <-]. pose proof (dict_get_state st row Hrow) as Hst.
  split; [assumption|].
  destruct (row_of_state st Hst) as (row' & Hrow' & _ & Hto).
  rewrite Hrow in Hrow'. injection Hrow' as <-.
  apply dict_get_In in Hsym.
  apply (proj1 (List.Forall_forall _ _) Hto (sym, to') Hsym).
Qed.

Lemma run_valid (w : string) :
  forall st st', 0 <= st <= 9 -> run st w = Some st' -> 0 <= st' <= 9.
Proof.
  induction w as [|ch w IH]; intros st st' Hst; simpl.
  - now intros [= <-].
  - destruct (step st (String ch "")) as [s1|] eqn:E; [|discriminate].
    apply IH. now apply step_valid in E.
Qed.

Lemma run_symbol (st : Z) (p : string * Z) :
  symbol_ok p -> run st (fst p) = step st (fst p).
Proof.
  intros [E|[E|E]]; rewrite E; simpl;
    match goal with |- context [step st ?s] => now destruct (step st s) end.
Qed.

Lemma apply_word_symbol (p : string * Z) (d : list (option Cx)) :
  symbol_ok p -> apply_word' (fst p) d = map (gen' (fst p)) d.
Proof.
  intros [E|[E|E]]; rewrite E; reflexivity.
Qed.

Lemma sound_depth (start : list (option Cx)) (i : nat) (x : item) :
  sound start i x -> depth_ok i x.
Proof.
  intros (Hlen & Hrun & _). split; [assumption|].
  apply (run_valid _ 0 _ ltac:(lia) Hrun).
Qed.

Lemma kids_sound (start : list (option Cx)) (len : Z) (i : nat) (x : item) :
  sound start i x -> Forall (sound start (S i)) (kids' len x).
Proof.
  intros Hx. pose proof (sound_depth start i x Hx) as [_ Hst].
  destruct x as [[w st] d]. destruct Hx as (Hlen & Hrun & Hd).
  simpl in Hlen, Hrun, Hd, Hst.
  unfold kids. destruct (Z.of_nat (String.length w) <? len); [|constructor].
  destruct (row_of_state st Hst) as (row & Hrow & Hsyms & _). rewrite Hrow.
  apply List.Forall_forall. intros y Hy.
  apply in_map_iff in Hy as (p & <- & Hp).
  pose proof (proj1 (List.Forall_forall _ _) Hsyms p Hp) as Hs.
  unfold sound. cbn [fst snd]. repeat split.
  - rewrite string_length_append, Hlen.
    destruct Hs as [E|[E|E]]; rewrite E; simpl; lia.
  - rewrite run_app, Hrun, (run_symbol st p Hs).
    now apply (step_in_row st row).
  - rewrite apply_word_app, <- Hd. symmetry. now apply apply_word_symbol.
Qed.

Lemma kids_level_sound (start : list (option Cx)) (len : Z) (i : nat)
      (q : list item) :
  Forall (sound start i) q ->
  Forall (sound start (S i)) (flat_map (kids' len) q).
Proof.
  induction 1 as [|x q Hx _ IH]; simpl; [constructor|].
  apply Forall_app. split; [now apply kids_sound|assumption].
Qed.

Lemma levels_nil (n : nat) (len : Z) : levels' n len [] = [].
Proof.
  induction n as [|n IH]; [reflexivity|]. simpl. apply IH.
Qed.

Lemma levels_sound (start : list (option Cx)) (len : Z) (n : nat) :
  forall (i : nat) (q : list item),
    Forall (sound start i) q ->
    forall x, In x (levels' n len q) ->
      exists j, sound start j x /\ (j = i \/ Z.of_nat j <= len).
Proof.
  induction n as [|n IH]; intros i q Hq x Hx; [contradiction|].
  cbn [levels] in Hx. apply in_app_iff in Hx as [Hx|Hx].
  - exists i. split; [|now left].
    apply (proj1 (List.Forall_forall _ _) Hq x Hx).
  - destruct (Z_lt_le_dec (Z.of_nat i) len) as [Hlt|Hge].
    + destruct (IH (S i) _ (kids_level_sound start len i q Hq) x Hx)
        as (j & Hj & [E|Hle]); exists j; (split; [assumption|]); right; lia.
    + rewrite (kids_deep len i q) in Hx; try assumption.
      * rewrite levels_nil in Hx. contradiction.
      * eapply Forall_impl; [exact Hq|]. apply sound_depth.
Qed.

(** A run of [traverse] that finishes yields the levels of the tree. *)
Lemma traverse_finished (len : Z) (start : list (option Cx)) (fuel : nat)
      (ys : list item) :
  traverse Cx add1 sub1 neg_inv zero is_zero fuel len start = (ys, Finished) ->
  ys = levels' (S (Z.to_nat len)) len [(""%string, 0, start)].
Proof.
  intros Hrun. unfold traverse in Hrun.
  set (out := levels' (S (Z.to_nat len)) len [(""%string, 0, start)]).
  pose proof (loop_more_fuel len fuel _ ys Hrun
                (Nat.max fuel (List.length out)) ltac:(lia)) as E1.
  pose proof (loop_levels len (Z.to_nat len) 0%nat [(""%string, 0, start)])
    as E2.
  fold out in E2.
  assert (Hroot : Forall (depth_ok 0) [(""%string, 0, start)]).
  { constructor; [|constructor]. split; simpl; [reflexivity|lia]. }
  specialize (E2 Hroot ltac:(lia)).
  pose proof (loop_more_fuel len _ _ out E2
                (Nat.max fuel (List.length out)) ltac:(lia)) as E3.
  congruence.
Qed.

Lemma root_sound (start : list (option Cx)) :
  Forall (sound start 0) [(""%string, 0, start)].
Proof.
  constructor; [|constructor]. repeat split.
Qed.

(** Every item [(word, state, domain)] of a finished traversal is what
    the automaton and the generators say: [word] has at most [length]
    symbols, [state] is the state the automaton reaches on [word] from
    state 0, [domain] is the start domain transformed by the symbols of
    [word] in order, and it has as many points as the start domain. *)
Theorem traverse_sound (len : Z) (start : list (option Cx)) (fuel : nat)
        (ys : list item) (w : string) (st : Z) (d : list (option Cx)) :
  traverse Cx add1 sub1 neg_inv zero is_zero fuel len start = (ys, Finished) ->
  In (w, st, d) ys ->
  Z.of_nat (String.length w) <= Z.max len 0 /\
  run 0 w = Some st /\
  d = apply_word' w start /\
  List.length d = List.length start.
Proof.
  intros Hrun Hin. rewrite (traverse_finished _ _ _ _ Hrun) in Hin.
  destruct (levels_sound start len _ 0%nat _ (root_sound start) _ Hin)
    as (j & (Hlen & Hr & Hd) & Hj).
  cbn [fst snd] in Hlen, Hr, Hd.
  repeat split; try assumption.
  - rewrite Hlen. destruct Hj as [->|Hj]; lia.
  - rewrite Hd. apply apply_word_length.
Qed.

(** *** Words are reduced *)

Lemma no_bad_pair (st : Z) :
  0 <= st <= 9 ->
  run st "AB" = None /\ run st "BA" = None /\ run st "CC" = None.
Proof.
  intros H. each_state H; repeat split.
Qed.

Lemma finished_sound (len : Z) (start : list (option Cx)) (fuel : nat)
      (ys : list item) (x : item) :
  traverse Cx add1 sub1 neg_inv zero is_zero fuel len start = (ys, Finished) ->
  In x ys ->
  exists j, sound start j x /\ (j = 0%nat \/ Z.of_nat j <= len).
Proof.
  intros Hrun Hin. rewrite (traverse_finished _ _ _ _ Hrun) in Hin.
  apply (levels_sound start len _ 0%nat _ (root_sound start) _ Hin).
Qed.

(** No word yielded contains a generator next to its inverse or a
    repeated [C]: the substrings "AB", "BA" and "CC" never occur. *)
Theorem traverse_words_reduced (len : Z) (start : list (option Cx))
        (fuel : nat) (ys : list item) (w : string) (st : Z)
        (d : list (option Cx)) :
  traverse Cx add1 sub1 neg_inv zero is_zero fuel len start = (ys, Finished) ->
  In (w, st, d) ys ->
  forall u v : string,
    w <> (u ++ "AB" ++ v)%string /\ w <> (u ++ "BA" ++ v)%string /\
    w <> (u ++ "CC" ++ v)%string.
Proof.
  intros Hrun Hin u v.
  destruct (finished_sound _ _ _ _ _ Hrun Hin) as (j & (_ & Hr & _) & _).
  cbn [fst snd] in Hr.
  assert (Hbad : forall x : string,
            run 0 (u ++ x ++ v) = Some st ->
            exists s1, 0 <= s1 <= 9 /\ run s1 x <> None).
  { intros x. rewrite run_app.
    destruct (run 0 u) as [s1|] eqn:Eu; [|discriminate].
    rewrite run_app. intros Hx. exists s1. split.
    - apply (run_valid u 0 s1 ltac:(lia) Eu).
    - destruct (run s1 x); [discriminate|discriminate]. }
  repeat split; intros ->; destruct (Hbad _ Hr) as (s1 & Hs1 & Hne);
    destruct (no_bad_pair s1 Hs1) as (E1 & E2 & E3); congruence.
Qed.

(** *** Every accepted word is yielded, once *)

Lemma string_snoc (j : nat) :
  forall w : string, String.length w = S j ->
    exists u ch, w = (u ++ String ch "")%string /\ String.length u = j.
Proof.
  induction j as [|j IH]; intros w Hw.
  - destruct w as [|ch [|ch' w]]; try discriminate.
    exists ""%string, ch. split; reflexivity.
  - destruct w as [|ch w]; [discriminate|].
    injection Hw as Hw. destruct (IH w Hw) as (u & ch' & -> & Hu).
    exists (String ch u), ch'. split; [reflexivity|]. simpl. now rewrite Hu.
Qed.

Lemma iter_in_levels (len : Z) (n : nat) :
  forall (q : list item) (j : nat) (x : item),
    (j < n)%nat -> In x (Nat.iter j (flat_map (kids' len)) q) ->
    In x (levels' n len q).
Proof.
  induction n as [|n IH]; intros q j x Hj Hx; [lia|].
  cbn [levels]. apply in_app_iff. destruct j as [|j].
  - left. exact Hx.
  - right. apply (IH _ j); [lia|]. now rewrite <- Nat.iter_succ_r.
Qed.

Lemma level_complete (start : list (option Cx)) (len : Z) (j : nat) :
  forall (w : string) (st : Z),
    String.length w = j -> run 0 w = Some st -> Z.of_nat j <= len ->
    In (w, st, apply_word' w start)
       (Nat.iter j (flat_map (kids' len)) [(""%string, 0, start)]).
Proof.
  induction j as [|j IH]; intros w st Hw Hrun Hlen.
  - destruct w; [|discriminate]. injection Hrun as <-. now left.
  - destruct (string_snoc j w Hw) as (u & ch & -> & Hu).
    rewrite run_app in Hrun.
    destruct (run 0 u) as [s1|] eqn:Eu; [|discriminate].
    simpl in Hrun.
    destruct (step s1 (String ch "")) as [to|] eqn:Estep; [|discriminate].
    injection Hrun as ->.
    specialize (IH u s1 Hu Eu ltac:(lia)).
    cbn [Nat.iter]. apply in_flat_map.
    exists (u, s1, apply_word' u start). split; [assumption|].
    unfold kids. rewrite Hu.
    destruct (Z.ltb_spec (Z.of_nat j) len); [|lia].
    unfold step in Estep.
    destruct (dict_get Z.eqb AUTOMATON s1) as [row|]; [|discriminate].
    destruct (dict_get String.eqb row (String ch "")) as [to'|] eqn:Esym;
      [|discriminate].
    injection Estep as ->. apply dict_get_In in Esym.
    apply in_map_iff. exists (String ch "", st). split; [|assumption].
    cbn [fst snd]. now rewrite apply_word_app.
Qed.

(** Every word the automaton accepts with at most [length] symbols is
    yielded, with the state it leads to and the domain it makes of the
    start domain. *)
Theorem traverse_complete (len : Z) (start : list (option Cx)) (fuel : nat)
        (ys : list item) (w : string) (st : Z) :
  traverse Cx add1 sub1 neg_inv zero is_zero fuel len start = (ys, Finished) ->
  run 0 w = Some st -> Z.of_nat (String.length w) <= len ->
  In (w, st, apply_word' w start) ys.
Proof.
  intros Hrun Hw Hlen. rewrite (traverse_finished _ _ _ _ Hrun).
  apply (iter_in_levels len _ _ (String.length w)); [lia|].
  now apply level_complete.
Qed.

Lemma string_append_same_length (u1 : string) :
  forall u2 s1 s2 : string,
    String.length u1 = String.length u2 ->
    (u1 ++ s1)%string = (u2 ++ s2)%string -> u1 = u2 /\ s1 = s2.
Proof.
  induction u1 as [|c1 u1 IH]; intros [|c2 u2] s1 s2 Hlen Heq;
    try discriminate.
  - split; [reflexivity|exact Heq].
  - simpl in Hlen, Heq. injection Hlen as Hlen. injection Heq as -> Heq.
    destruct (IH u2 s1 s2 Hlen Heq) as [-> ->]. split; reflexivity.
Qed.

Lemma NoDup_flat_map_key {X Y K} (key : X -> K) (f : X -> list Y)
      (l : list X) :
  List.NoDup (map key l) ->
  (forall x, In x l -> List.NoDup (f x)) ->
  (forall x1 x2 y, In x1 l -> In x2 l -> In y (f x1) -> In y (f x2) ->
     key x1 = key x2) ->
  List.NoDup (flat_map f l).
Proof.
  induction l as [|x l IH]; intros Hkeys Hf Hdisj; [constructor|].
  simpl in Hkeys. apply List.NoDup_cons_iff in Hkeys as [Hx Hkeys].
  cbn [flat_map]. apply List.NoDup_app.
  - apply Hf. now left.
  - apply IH; auto using in_cons.
    intros x1 x2 y H1 H2. apply Hdisj; now right.
  - intros y Hy Hy'.
    apply in_flat_map in Hy' as (x' & Hx' & Hy').
    apply Hx. rewrite (Hdisj x x' y); auto using in_eq, in_cons.
    now apply in_map.
Qed.

Lemma row_keys_NoDup (st : Z) (row : list (string * Z)) :
  dict_get Z.eqb AUTOMATON st = Found row -> List.NoDup (map fst row).
Proof.
  intros Hrow. pose proof (dict_get_state st row Hrow) as Hst.
  each_state Hst; injection Hrow as <-; simpl.
  all: repeat (apply List.NoDup_cons; [simpl; intuition discriminate|]).
  all: apply List.NoDup_nil.
Qed.

Lemma kids_words_NoDup (len : Z) (i : nat) (x : item) :
  depth_ok i x -> List.NoDup (map word_of (kids' len x)).
Proof.
  destruct x as [[w st] d]. intros [_ Hst]. simpl in Hst.
  unfold kids. destruct (Z.of_nat (String.length w) <? len); [|constructor].
  destruct (dict_get Z.eqb AUTOMATON st) as [row|] eqn:Hrow; [|constructor].
  pose proof (row_keys_NoDup st row Hrow) as Hnd. clear Hrow.
  rewrite map_map. cbn [fst].
  induction row as [|p row IH]; [constructor|].
  simpl in Hnd. apply List.NoDup_cons_iff in Hnd as [Hp Hnd].
  simpl. apply List.NoDup_cons; [|now apply IH].
  intros Hin. apply in_map_iff in Hin as (p' & Heq & Hp').
  destruct (string_append_same_length w w (fst p') (fst p) eq_refl Heq)
    as [_ E].
  apply Hp. rewrite <- E. now apply in_map.
Qed.

Lemma map_flat_map {X Y W} (g : Y -> W) (f : X -> list Y) (l : list X) :
  map g (flat_map f l) = flat_map (fun x => map g (f x)) l.
Proof.
  induction l as [|x l IH]; [reflexivity|].
  simpl. now rewrite map_app, IH.
Qed.

Lemma kids_level_words_NoDup (len : Z) (i : nat) (q : list item) :
  Forall (depth_ok i) q -> List.NoDup (map word_of q) ->
  List.NoDup (map word_of (flat_map (kids' len) q)).
Proof.
  intros Hq Hnd. rewrite map_flat_map.
  apply (NoDup_flat_map_key word_of); [assumption| |].
  - intros x Hx. apply (kids_words_NoDup len i).
    apply (proj1 (List.Forall_forall _ _) Hq x Hx).
  - intros x1 x2 y H1 H2 Hy1 Hy2.
    pose proof (proj1 (List.Forall_forall _ _) Hq x1 H1) as [L1 _].
    pose proof (proj1 (List.Forall_forall _ _) Hq x2 H2) as [L2 _].
    destruct x1 as [[w1 s1] d1], x2 as [[w2 s2] d2]. simpl in L1, L2.
    unfold kids in Hy1, Hy2. cbn [fst].
    destruct (Z.of_nat (String.length w1) <? len); [|contradiction].
    destruct (Z.of_nat (String.length w2) <? len); [|contradiction].
    destruct (dict_get Z.eqb AUTOMATON s1) as [r1|]; [|contradiction].
    destruct (dict_get Z.eqb AUTOMATON s2) as [r2|]; [|contradiction].
    rewrite map_map in Hy1, Hy2. cbn [fst] in Hy1, Hy2.
    apply in_map_iff in Hy1 as (p1 & E1 & _).
    apply in_map_iff in Hy2 as (p2 & E2 & _).
    rewrite <- E2 in E1.
    apply (string_append_same_length w1 w2 (fst p1) (fst p2)); congruence.
Qed.

Lemma levels_depth_ge (len : Z) (n : nat) :
  forall (i : nat) (q : list item),
    Forall (depth_ok i) q ->
    forall x, In x (levels' n len q) ->
      (i <= String.length (word_of x))%nat.
Proof.
  induction n as [|n IH]; intros i q Hq x Hx; [contradiction|].
  cbn [levels] in Hx. apply in_app_iff in Hx as [Hx|Hx].
  - destruct (proj1 (List.Forall_forall _ _) Hq x Hx) as [E _].
    cbn [fst]. lia.
  - specialize (IH (S i) _ (kids_level_depth len i q Hq) x Hx). lia.
Qed.

Lemma levels_words_NoDup (len : Z) (n : nat) :
  forall (i : nat) (q : list item),
    Forall (depth_ok i) q -> List.NoDup (map word_of q) ->
    List.NoDup (map word_of (levels' n len q)).
Proof.
  induction n as [|n IH]; intros i q Hq Hnd; [constructor|].
  cbn [levels]. rewrite map_app. apply List.NoDup_app.
  - assumption.
  - apply (IH (S i)).
    + now apply kids_level_depth.
    + now apply (kids_level_words_NoDup len i).
  - intros w Hw Hw'.
    apply in_map_iff in Hw as (x & <- & Hx).
    apply in_map_iff in Hw' as (x' & E & Hx').
    destruct (proj1 (List.Forall_forall _ _) Hq x Hx) as [L _].
    pose proof (levels_depth_ge len n (S i) _
                  (kids_level_depth len i q Hq) x' Hx') as L'.
    cbn [fst] in *. rewrite E in L'. lia.
Qed.

(** No word is yielded twice: the traversal visits each element of the
    group it reaches once. *)
Theorem traverse_words_distinct (len : Z) (start : list (option Cx))
        (fuel : nat) (ys : list item) :
  traverse Cx add1 sub1 neg_inv zero is_zero fuel len start = (ys, Finished) ->
  List.NoDup (map word_of ys).
Proof.
  intros Hrun. rewrite (traverse_finished _ _ _ _ Hrun).
  apply (levels_words_NoDup len _ 0%nat).
  - constructor; [|constructor]. split; simpl; [reflexivity|lia].
  - repeat constructor. simpl. tauto.
Qed.

End Facts.

Lemma traverse_level_order_witness :
  traverse_Z 4 1 [Some 5; None] =
  ([(""%string, 0, [Some 5; None]); ("A"%string, 1, [Some 6; None]);
    ("B"%string, 2, [Some 4; None]); ("C"%string, 3, [Some (-1); Some 0])],
   Finished).
Proof.
  apply (traverse_level_order Z (fun z => z + 1) (fun z => z - 1)
           (fun z => -1 / z) 0 (fun z => z =? 0) 1 [Some 5; None] 4%nat).
  vm_compute. lia.
Defined.

Lemma traverse_sound_witness :
  run 0 "C" = Some 3 /\
  [Some (-1); Some 0] =
  apply_word Z (fun z => z + 1) (fun z => z - 1) (fun z => -1 / z) 0
             (fun z => z =? 0) "C" [Some 5; None].
Proof.
  destruct (traverse_sound Z (fun z => z + 1) (fun z => z - 1)
              (fun z => -1 / z) 0 (fun z => z =? 0) 1 [Some 5; None] 4%nat
              [(""%string, 0, [Some 5; None]);
               ("A"%string, 1, [Some 6; None]);
               ("B"%string, 2, [Some 4; None]);
               ("C"%string, 3, [Some (-1); Some 0])]
              "C"%string 3 [Some (-1); Some 0]) as (_ & H2 & H3 & _).
  - vm_compute. reflexivity.
  - simpl. auto.
  - split; assumption.
Defined.

Lemma traverse_words_reduced_witness :
  "CA"%string <> ("C" ++ "CC" ++ "A")%string.
Proof.
  apply (traverse_words_reduced Z (fun z => z + 1) (fun z => z - 1)
           (fun z => -1 / z) 0 (fun z => z =? 0) 2 [Some 5; None] 20%nat
           (fst (traverse_Z 20 2 [Some 5; None]))
           "CA"%string 4 [Some 0; Some 1]).
  - vm_compute. reflexivity.
  - vm_compute. repeat (try (left; reflexivity); right).
Defined.

Lemma traverse_complete_witness :
  In ("CB"%string, 5, [Some (-2); Some (-1)])
     (fst (traverse_Z 20 2 [Some 5; None])).
Proof.
  apply (traverse_complete Z (fun z => z + 1) (fun z => z - 1)
           (fun z => -1 / z) 0 (fun z => z =? 0) 2 [Some 5; None] 20%nat
           (fst (traverse_Z 20 2 [Some 5; None])) "CB"%string 5).
  - vm_compute. reflexivity.
  - vm_compute. reflexivity.
  - vm_compute. discriminate.
Defined.

Lemma traverse_words_distinct_witness :
  List.NoDup (map (fun x => fst (fst x))
                  (fst (traverse_Z 20 2 [Some 5; None]))).
Proof.
  apply (traverse_words_distinct Z (fun z => z + 1) (fun z => z - 1)
           (fun z => -1 / z) 0 (fun z => z =? 0) 2 [Some 5; None] 20%nat).
  vm_compute. reflexivity.
Defined.

End ModularGroupFacts.
